(** * ember-intl: the [intl] service (addon/services/intl.js)

    A shallow embedding of the service object and of the host facilities it
    drives (the Ember run loop, the memoizer wrapped around the engine
    constructor, the formatting engine's error callback), followed by the
    properties of the service that the specification states. *)

From Stdlib Require Import Ascii.
From stdpp Require Import gmap strings list fin_maps.

(** ** JavaScript values that reach the service *)

(** A locale argument as a caller may pass it.  Arrays hold locale names;
    [VObject] stands for any other non-array object. *)
Inductive JsValue :=
  | VUndefined
  | VNull
  | VBool (b : bool)
  | VNumber (n : Z)
  | VString (s : string)
  | VArray (xs : list string)
  | VObject.

(** [!v] is [negb (truthy v)]. *)
Definition truthy (v : JsValue) : bool :=
  match v with
  | VUndefined | VNull => false
  | VBool b => b
  | VNumber n => negb (n =? 0)%Z
  | VString s => negb (String.eqb s "")
  | VArray _ | VObject => true
  end.

Definition is_string (v : JsValue) : bool :=
  match v with VString _ => true | _ => false end.

(** [Array.isArray] *)
Definition isArray (v : JsValue) : bool :=
  match v with VArray _ => true | _ => false end.

(** The argument of the [locale] setter and of [setLocale]: a locale name,
    an array of locale names, or nothing ([null]/[undefined]). *)
Inductive LocaleName :=
  | LNothing
  | LString (s : string)
  | LArray (xs : list string).

Definition locale_truthy (v : LocaleName) : bool :=
  match v with
  | LNothing => false
  | LString s => negb (String.eqb s "")
  | LArray _ => true
  end.

(** [makeArray] of @ember/array: nothing becomes the empty array, an array is
    returned as it is, anything else is wrapped. *)
Definition makeArray (v : LocaleName) : list string :=
  match v with
  | LNothing => []
  | LString s => [s]
  | LArray xs => xs
  end.

(** ** Errors and completions *)

(** An error object handed by the formatting engine to [onError]. *)
Record IntlError := mkIntlError {
  code : string;
  message : string;
}.

(** The engine's [IntlErrorCode] enumeration (@formatjs/intl). *)
Module IntlErrorCode.
Definition FORMAT_ERROR : string := "FORMAT_ERROR".
Definition UNSUPPORTED_FORMATTER : string := "UNSUPPORTED_FORMATTER".
Definition INVALID_CONFIG : string := "INVALID_CONFIG".
Definition MISSING_DATA : string := "MISSING_DATA".
Definition MISSING_TRANSLATION : string := "MISSING_TRANSLATION".
End IntlErrorCode.

Inductive JsError :=
  | AssertionError (msg : string)
  | TypeError (msg : string)
  | EngineError (err : IntlError).

(** How a call ends: with a value, or by throwing. *)
Inductive Completion (A : Type) :=
  | Normal (a : A)
  | Throw (e : JsError).
Arguments Normal {A} a.
Arguments Throw {A} e.

Definition throws {A} (c : Completion A) : bool :=
  match c with Normal _ => false | Throw _ => true end.

(** [assert(desc, test)] of @ember/debug. *)
Definition assert (desc : string) (test : bool) : Completion unit :=
  if test then Normal tt else Throw (AssertionError desc).

(** [onIntlError(err)] *)
Definition onIntlError (err : IntlError) : Completion unit :=
  if negb (String.eqb (code err) IntlErrorCode.MISSING_TRANSLATION)
  then Throw (EngineError err)
  else Normal tt.

(** The engine reports a batch of errors one after the other; the first one
    that [onError] throws ends the batch. *)
Fixpoint report_all (onError : IntlError → Completion unit)
    (errs : list IntlError) : Completion unit :=
  match errs with
  | [] => Normal tt
  | err :: rest =>
      match onError err with
      | Normal _ => report_all onError rest
      | Throw e => Throw e
      end
  end.

(** ** Types of values and inherited properties *)



(** The names under which every plain object, such as [{}], has a property
    although none was ever assigned: those of [Object.prototype]. *)
Definition Object_prototype : list string :=
  ["constructor"; "hasOwnProperty"; "isPrototypeOf"; "propertyIsEnumerable";
   "toLocaleString"; "toString"; "valueOf"; "__proto__";
   "__defineGetter__"; "__defineSetter__"; "__lookupGetter__";
   "__lookupSetter__"].

Definition inherited (name : string) : bool :=
  bool_decide (name ∈ Object_prototype).

(** What reading a key from a message map can give: a translation, which is
    an entry of a flattened map, or a built-in value, reached from
    [Object.prototype] through the given property names ([is_truthy] tells
    whether it counts as true). *)
Inductive Found :=
  | Translation (s : string)
  | Inherited (names : list string) (is_truthy : bool).

Definition found_truthy (v : Found) : bool :=
  match v with
  | Translation s => negb (String.eqb s "")
  | Inherited _ b => b
  end.

(** What [this._messagesMap[localeName] || {}] can be: a map that [flatten]
    returned, the new empty object, or the built-in value that
    [_messagesMap], a plain object, inherits under that name. *)
Inductive Messages :=
  | Flattened (m : gmap string string)
  | EmptyObject
  | Builtin (name : string).

(** ** The service object *)

(** The five formatters created by [_createFormatters]. *)
Inductive FormatterKind :=
  | FormatRelative | FormatMessage | FormatNumber | FormatTime | FormatDate.

(** What an observer of the service sees when a scheduled notification runs:
    the [localeChanged] event (a listener reading the [locale] property gets
    [active]) and the write of the document's [lang] attribute. *)
Inductive Event :=
  | LocaleChanged (active : option (list string))
  | DocumentLang (lang : option string).

(** The formatting options of a call: [locale], and everything else, which
    the service passes through to the engine untouched. *)
Record FormatOptions (Options : Type) := mkFormatOptions {
  fo_locale : JsValue;
  fo_rest : Options;
}.
Arguments mkFormatOptions {Options} _ _.
Arguments fo_locale {Options} _.
Arguments fo_rest {Options} _.

(** The configuration object handed to the engine constructor. *)
Record IntlConfig (Formats : Type) := mkIntlConfig {
  cfg_locale : option string;
  cfg_defaultLocale : option string;
  cfg_formats : Formats;
  cfg_defaultFormats : Formats;
  cfg_messages : option (gmap string string);
}.
Arguments mkIntlConfig {Formats} _ _ _ _ _.
Arguments cfg_locale {Formats} _.
Arguments cfg_defaultLocale {Formats} _.
Arguments cfg_formats {Formats} _.
Arguments cfg_defaultFormats {Formats} _.
Arguments cfg_messages {Formats} _.

(** An engine object: [handle] is its identity on the heap. *)
Record IntlShape (Formats : Type) := mkIntlShape {
  handle : nat;
  config : IntlConfig Formats;
}.
Arguments mkIntlShape {Formats} _ _.
Arguments handle {Formats} _.
Arguments config {Formats} _.

(** ** A sample instance

    Concrete stand-ins for what the service gets from outside intl.js, used
    to run the service on examples. *)
Module Sample.

Definition normalize_char (c : ascii) : ascii :=
  let n := nat_of_ascii c in
  if (65 <=? n) && (n <=? 90) then ascii_of_nat (n + 32)
  else if n =? 95 then "-"%char
  else c.

(** Modelled from the spec: [normalizeLocale] (-private/utils/normalize-locale),
    which gives the same canonical form to names that differ in case or in
    the separator only: letters are lowered and [_] becomes [-]. *)
Fixpoint normalize (raw : string) : string :=
  match raw with
  | EmptyString => EmptyString
  | String c rest => String (normalize_char c) (normalize rest)
  end.

(** A nested payload: a mapping whose values are strings or mappings. *)
Inductive Nested :=
  | NoMore
  | LeafEntry (k : string) (s : string) (rest : Nested)
  | NestedEntry (k : string) (children : Nested) (rest : Nested).

Definition join_path (path : option string) (k : string) : string :=
  match path with
  | None => k
  | Some p => p +:+ "." +:+ k
  end.

Fixpoint flatten_at (path : option string) (payload : Nested)
    : list (string * string) :=
  match payload with
  | NoMore => []
  | LeafEntry k s rest => (join_path path k, s) :: flatten_at path rest
  | NestedEntry k children rest =>
      flatten_at (Some (join_path path k)) children ++ flatten_at path rest
  end.

(** Modelled from the spec: [flatten] (-private/utils/flatten), which turns
    a nested payload into a flat mapping from dot-joined paths to leaf
    strings. *)
Definition flatten (payload : Nested) : gmap string string :=
  list_to_map (flatten_at None payload).

(** An engine that, like @formatjs/intl, reports an invalid configuration
    when it is constructed without a locale, and a missing translation
    when a message id is not among its messages (the id is then its
    output). *)
Definition reports (cfg : IntlConfig string) : list IntlError :=
  match cfg_locale cfg with
  | None =>
      [mkIntlError IntlErrorCode.INVALID_CONFIG "locale was not configured"]
  | Some _ => []
  end.

Definition format (kind : FormatterKind) (intl : IntlShape string)
    (value : string) (formatOptions : option (FormatOptions unit))
    : list IntlError * string :=
  match kind with
  | FormatMessage =>
      match default ∅ (cfg_messages (config intl)) !! value with
      | Some pattern => ([], pattern)
      | None =>
          ([mkIntlError IntlErrorCode.MISSING_TRANSLATION value], value)
      end
  | _ => ([], value)
  end.

End Sample.

Section Service.

(** Helpers that the service imports from files outside intl.js, taken as
    parameters: [normalizeLocale] (-private/utils/normalize-locale) and
    [flatten] (-private/utils/flatten) with its input type. *)
Variable normalizeLocale : string → string.
Context {NestedStructure : Type}.
Variable flatten : NestedStructure → gmap string string.

(** The format configuration.  The memoizer keys its cache on the
    serialised argument list, so all it needs of a configuration is a
    decidable, countable identity. *)
Context {Formats : Type} `{Countable Formats}.

(** Values to format and the caller's formatting options other than
    [locale]; both are passed through to the engine untouched. *)
Context {Value Options : Type}.

Abbreviation FormatOptions := (FormatOptions Options).
Abbreviation IntlConfig := (IntlConfig Formats).
Abbreviation IntlShape := (IntlShape Formats).

(** The formatting engine (@formatjs/intl) is external.  All the service
    sees of it is which errors it passes to [onError], while it constructs
    an engine and while it formats, and the string it produces. *)
Variable engine_reports : IntlConfig → list IntlError.
Variable engine_format :
  FormatterKind → IntlShape → Value → option FormatOptions →
  list IntlError * string.

(** The service together with the part of the host it drives.
    [_messagesMap], [_locale], [_timer] and [formats] are the object's own
    properties; [memo] is the cache inside the closure that [memoize]
    returns; [rl_queue] holds the timers of the run loop that are still
    scheduled; [heap_fresh] is the next free object identity.  [events] and
    [ctor_log] are observations: what notifications did, and each run of
    the engine constructor with whether it returned. *)
Record Service := mkService {
  formats : Formats;
  _messagesMap : gmap string (gmap string string);
  _locale : option (list string);
  _timer : option nat;
  memo : gmap (option string * Formats) IntlShape;
  rl_fresh : nat;
  rl_queue : list nat;
  has_dom : bool;
  heap_fresh : nat;
  events : list Event;
  ctor_log : list ((option string * Formats) * bool);
}.

Definition set__messagesMap (m : gmap string (gmap string string))
    (s : Service) : Service :=
  mkService (formats s) m (_locale s) (_timer s) (memo s) (rl_fresh s)
    (rl_queue s) (has_dom s) (heap_fresh s) (events s) (ctor_log s).

Definition set__locale (l : option (list string)) (s : Service) : Service :=
  mkService (formats s) (_messagesMap s) l (_timer s) (memo s) (rl_fresh s)
    (rl_queue s) (has_dom s) (heap_fresh s) (events s) (ctor_log s).

Definition set__timer (t : option nat) (s : Service) : Service :=
  mkService (formats s) (_messagesMap s) (_locale s) t (memo s) (rl_fresh s)
    (rl_queue s) (has_dom s) (heap_fresh s) (events s) (ctor_log s).

Definition set_memo (c : gmap (option string * Formats) IntlShape)
    (s : Service) : Service :=
  mkService (formats s) (_messagesMap s) (_locale s) (_timer s) c
    (rl_fresh s) (rl_queue s) (has_dom s) (heap_fresh s) (events s)
    (ctor_log s).

Definition set_runloop (fresh : nat) (queue : list nat) (s : Service)
    : Service :=
  mkService (formats s) (_messagesMap s) (_locale s) (_timer s) (memo s)
    fresh queue (has_dom s) (heap_fresh s) (events s) (ctor_log s).

Definition set_heap_fresh (n : nat) (s : Service) : Service :=
  mkService (formats s) (_messagesMap s) (_locale s) (_timer s) (memo s)
    (rl_fresh s) (rl_queue s) (has_dom s) n (events s) (ctor_log s).

Definition set_events (ev : list Event) (s : Service) : Service :=
  mkService (formats s) (_messagesMap s) (_locale s) (_timer s) (memo s)
    (rl_fresh s) (rl_queue s) (has_dom s) (heap_fresh s) ev (ctor_log s).

Definition set_ctor_log (l : list ((option string * Formats) * bool))
    (s : Service) : Service :=
  mkService (formats s) (_messagesMap s) (_locale s) (_timer s) (memo s)
    (rl_fresh s) (rl_queue s) (has_dom s) (heap_fresh s) (events s) l.

(** *** Methods that change the service run in a state and error monad *)

Definition M (A : Type) : Type := Service → Completion A * Service.

Definition ret {A} (a : A) : M A := λ st, (Normal a, st).
Definition raise {A} (e : JsError) : M A := λ st, (Throw e, st).
Definition bind {A B} (m : M A) (k : A → M B) : M B :=
  λ st, match m st with
        | (Normal a, st') => k a st'
        | (Throw e, st') => (Throw e, st')
        end.
Definition lift {A} (c : Completion A) : M A := λ st, (c, st).
Definition gets {A} (f : Service → A) : M A := λ st, (Normal (f st), st).
Definition modify (f : Service → Service) : M unit :=
  λ st, (Normal tt, f st).

Notation "x <~ m ;; k" := (bind m (λ x, k))
  (at level 100, m at next level, right associativity).
Notation "m ;;; k" := (bind m (λ _, k))
  (at level 100, right associativity).

(** *** The run loop: [next] and [cancel] of @ember/runloop *)

(** [next(callback)] schedules the callback for the following turn and
    returns a fresh timer.  The service schedules one callback only, so a
    timer identifies it. *)
Definition next : M nat :=
  λ st, (Normal (rl_fresh st),
         set_runloop (S (rl_fresh st)) (rl_queue st ++ [rl_fresh st]) st).

(** [cancel(timer)]: a timer that is [null], has run or was cancelled
    before is ignored. *)
Definition cancel (timer : option nat) : M unit :=
  match timer with
  | None => ret tt
  | Some t =>
      modify (λ st, set_runloop (rl_fresh st)
                      (filter (λ t', t' ≠ t) (rl_queue st)) st)
  end.

(** [this.trigger('localeChanged')] *)
Definition trigger_localeChanged : M unit :=
  modify (λ st, set_events (events st ++ [LocaleChanged (_locale st)]) st).

(** [_updateDocumentLanguage(locales)].  [getDOM(this)] is the document when
    the host has one. *)
Definition _updateDocumentLanguage (locales : option (list string))
    : M unit :=
  dom <~ gets has_dom ;;
  if dom then
    match locales with
    | Some ls =>
        modify (λ st, set_events (events st ++ [DocumentLang (head ls)]) st)
    | None => raise (TypeError "locales is not iterable")
    end
  else ret tt.

(** The callback given to [next] by the setter. *)
Definition notify : M unit :=
  trigger_localeChanged ;;;
  locales <~ gets _locale ;;
  _updateDocumentLanguage locales.

Fixpoint run_timers (ts : list nat) : M unit :=
  match ts with
  | [] => ret tt
  | _ :: rest => notify ;;; run_timers rest
  end.

(** One turn of the run loop: every timer scheduled so far runs. *)
Definition turn : M unit :=
  ts <~ gets rl_queue ;;
  modify (λ st, set_runloop (rl_fresh st) [] st) ;;;
  run_timers ts.

(** *** The active locale *)

(** Modelled from the spec: [isArrayEqual] (-private/utils/is-array-equal),
    the comparison of the proposed locales with the current ones, which is
    element-wise; before the first assignment [_locale] is [null] and
    equals no array. *)
Definition isArrayEqual (a : list string) (b : option (list string))
    : bool :=
  match b with
  | Some b' => bool_decide (a = b')
  | None => false
  end.

(** [makeArray(localeName).map(normalizeLocale)] *)
Definition proposed (localeName : LocaleName) : list string :=
  normalizeLocale <$> makeArray localeName.

(** The setter of the computed property [locale]. *)
Definition locale_set (localeName : LocaleName) : M (option (list string)) :=
  current <~ gets _locale ;;
  (if negb (isArrayEqual (proposed localeName) current) then
     modify (set__locale (Some (proposed localeName))) ;;;
     timer <~ gets _timer ;;
     cancel timer ;;;
     timer' <~ next ;;
     modify (set__timer (Some timer'))
   else ret tt) ;;;
  gets _locale.

(** The getter of [locale]. *)
Definition locale_get : M (option (list string)) := gets _locale.

(** [primaryLocale] *)
Definition primaryLocale (st : Service) : option string :=
  _locale st ≫= head.

(** [setLocale(locale)] *)
Definition setLocale (locale : LocaleName) : M unit :=
  lift (assert
          "[ember-intl] no locale has been set!  See: https://ember-intl.github.io/ember-intl/docs/quickstart#4-configure-ember-intl"
          (locale_truthy locale)) ;;;
  locale_set locale ;;;
  ret tt.

(** [willDestroy()] *)
Definition willDestroy : M unit :=
  timer <~ gets _timer ;;
  cancel timer.

(** *** Candidate locales, the translation store and its queries *)

Definition cbind {A B} (c : Completion A) (k : A → Completion B)
    : Completion B :=
  match c with
  | Normal a => k a
  | Throw e => Throw e
  end.

(** A method that only reads the service, used inside one that changes it. *)
Definition reads {A} (f : Service → Completion A) : M A :=
  λ st, (f st, st).

(** [_localeWithDefault(localeName)].  The result [None] is [undefined]:
    the function body ends without a [return]. *)
Definition _localeWithDefault (st : Service) (localeName : JsValue)
    : Completion (option (list string)) :=
  if negb (truthy localeName) then
    Normal (Some (default [] (_locale st)))
  else if is_string localeName then
    match localeName with
    | VString s => Normal (Some (normalizeLocale <$> [s]))
    | _ => Normal None
    end
  else if isArray localeName then
    match localeName with
    | VArray xs => Normal (Some (normalizeLocale <$> xs))
    | _ => Normal None
    end
  else Normal None.

(** [this._messagesMap[localeName] || {}], read for the entries that were
    assigned; [messages_read] below also reads what objects inherit. *)
Definition messages_of (st : Service) (localeName : string)
    : gmap string string :=
  default ∅ (_messagesMap st !! localeName).

(** The [for] loop of [lookup]; the result [None] is [undefined]. *)
Fixpoint lookup_loop (st : Service) (key : string)
    (localeNames : list string) : option string :=
  match localeNames with
  | [] => None
  | localeName :: rest =>
      match messages_of st localeName !! key with
      | Some translation => Some translation
      | None => lookup_loop st key rest
      end
  end.

(** [lookup(key, localeName)], reading assigned entries only. *)
Definition lookup (st : Service) (key : string) (localeName : JsValue)
    : Completion (option string) :=
  cbind (_localeWithDefault st localeName) (λ localeNames,
    match localeNames with
    | Some ls => Normal (lookup_loop st key ls)
    | None =>
        Throw (TypeError "Cannot read properties of undefined (reading 'length')")
    end).

(** Truthiness of [messages[key]]: a missing key and the empty string are
    falsy. *)
Definition truthy_translation (o : option string) : bool :=
  match o with
  | Some s => negb (String.eqb s "")
  | None => false
  end.

(** [exists(key, localeName)], reading assigned entries only. *)
Definition exists_ (st : Service) (key : string) (localeName : JsValue)
    : Completion bool :=
  cbind (_localeWithDefault st localeName) (λ localeNames,
    cbind
      (assert ("[ember-intl] locale is unset, cannot lookup '" +:+ key +:+ "'")
         (match localeNames with
          | Some ls => negb (Nat.eqb (length ls) 0)
          | None => false
          end))
      (λ _,
         match localeNames with
         | Some ls =>
             Normal (existsb
                       (λ l, truthy_translation (messages_of st l !! key)) ls)
         | None =>
             Throw (TypeError "localeNames.some is not a function")
         end)).

(** [addTranslations(localeName, payload)] *)
Definition addTranslations (localeName : string) (payload : NestedStructure)
    : M unit :=
  modify (λ st,
    set__messagesMap
      (<[normalizeLocale localeName := flatten payload]> (_messagesMap st))
      st).

(** [translationsFor(localeName)] *)
Definition translationsFor (st : Service) (localeName : string)
    : option (gmap string string) :=
  _messagesMap st !! normalizeLocale localeName.

(** *** The engine cache *)

(** The engine constructor called with [onError: this.onIntlError]: the
    errors the engine reports go through [onIntlError], and when none of
    them is thrown a new engine object holding the configuration is
    returned.  Each run is recorded in [ctor_log]. *)
Definition engine_createIntl (cfg : IntlConfig) : M IntlShape :=
  λ st,
    let key := (cfg_locale cfg, cfg_formats cfg) in
    match report_all onIntlError (engine_reports cfg) with
    | Throw e => (Throw e, set_ctor_log (ctor_log st ++ [(key, false)]) st)
    | Normal _ =>
        (Normal (mkIntlShape (heap_fresh st) cfg),
         set_ctor_log (ctor_log st ++ [(key, true)])
           (set_heap_fresh (S (heap_fresh st)) st))
    end.

(** The name under which a primary locale is read as a property of
    [_messagesMap]. *)
Definition property_name (locale : option string) : string :=
  default "undefined" locale.

(** [this.createIntl], the function returned by [memoize] in [init]: a call
    whose arguments are in the cache returns the cached engine; otherwise
    the wrapped function runs and its result, when it returns one, is
    cached. *)
Definition createIntl (locale : option string) (fmts : Formats)
    : M IntlShape :=
  cache <~ gets memo ;;
  match cache !! (locale, fmts) with
  | Some intl => ret intl
  | None =>
      messagesMap <~ gets _messagesMap ;;
      intl <~ engine_createIntl
                (mkIntlConfig locale locale fmts fmts
                   (messagesMap !! property_name locale)) ;;
      modify (λ st, set_memo (<[(locale, fmts) := intl]> (memo st)) st) ;;;
      ret intl
  end.

(** [Array.isArray(locale) ? locale[0] : locale], where [locale] is an
    array, or [None] for a value that is not one ([undefined]; [null]
    before [init] has run). *)
Definition primary (locale : option (list string)) : option string :=
  match locale with
  | Some ls => head ls
  | None => None
  end.

(** [getIntl(locale)] *)
Definition getIntl (locale : option (list string)) : M IntlShape :=
  fmts <~ gets formats ;;
  createIntl (primary locale) fmts.

(** *** The formatting entry points *)

(** Modelled from the spec: the [format(locale, value, formatOptions)]
    method of the formatter classes (-private/formatters), which fetches
    the engine through the [getIntl] it was configured with and delegates
    the formatting to it, passing the caller's options through. *)
Definition formatter_format (kind : FormatterKind)
    (locale : option (list string)) (value : Value)
    (formatOptions : option FormatOptions) : M string :=
  intl <~ getIntl locale ;;
  lift (report_all onIntlError
          (fst (engine_format kind intl value formatOptions))) ;;;
  ret (snd (engine_format kind intl value formatOptions)).

(** The locales a formatting call resolves: the conditional at the head
    of [serviceFormatterProxy]. *)
Definition proxy_locale (st : Service)
    (formatOptions : option FormatOptions)
    : Completion (option (list string)) :=
  match formatOptions with
  | Some fo =>
      if truthy (fo_locale fo) then _localeWithDefault st (fo_locale fo)
      else Normal (_locale st)
  | None => Normal (_locale st)
  end.

(** [createFormatterProxy(name)] *)
Definition serviceFormatterProxy (name : FormatterKind) (value : Value)
    (formatOptions : option FormatOptions) : M string :=
  locale <~ reads (λ st, proxy_locale st formatOptions) ;;
  formatter_format name locale value formatOptions.

Definition formatRelative := serviceFormatterProxy FormatRelative.
Definition formatMessage := serviceFormatterProxy FormatMessage.
Definition formatTime := serviceFormatterProxy FormatTime.
Definition formatDate := serviceFormatterProxy FormatDate.

(** *** Creation *)

(** The object as the class defines it, before [init]. *)
Definition blank (fmts : Formats) (dom : bool) : Service :=
  mkService fmts ∅ None None ∅ 0 [] dom 0 [] [].

(** [hydrate(this)] (-private/utils/hydrate) registers the translations
    bundled with the application; it is taken as the list of registrations
    it makes. *)
Fixpoint hydrate (bundled : list (string * NestedStructure)) : M unit :=
  match bundled with
  | [] => ret tt
  | (localeName, payload) :: rest =>
      addTranslations localeName payload ;;; hydrate rest
  end.

(** [init()] *)
Definition init (bundled : list (string * NestedStructure)) : M unit :=
  current <~ locale_get ;;
  setLocale (match current with
             | Some ls => LArray ls
             | None => LArray ["en-us"]
             end) ;;;
  modify (set_memo ∅) ;;;
  hydrate bundled.

(** *** Validation of translation keys *)

(** The string a value becomes inside a template literal: the language's
    conversion, taken as a parameter. *)
Variable template_string : JsValue → string.



(** *** Reading message maps as JavaScript reads objects *)

(** Whether the objects [flatten] returns are plain objects, which inherit
    from [Object.prototype], or have no prototype; and what the built-in
    values of [Object.prototype] themselves hold under a key (nothing, or a
    value that counts as true or as false).  Both are outside intl.js and
    left open. *)
Variable flattened_is_plain : bool.
Variable builtin_property : string → string → option bool.

(** [this._messagesMap[localeName] || {}], with the property read in full:
    an entry that was assigned, else what a plain object inherits (always a
    value that counts as true), else the new empty object.  This is the
    read of a store to which nothing was assigned under the name
    [__proto__]: an assignment there replaces what the store inherits. *)
Definition messages_read (st : Service) (localeName : string) : Messages :=
  match _messagesMap st !! localeName with
  | Some m => Flattened m
  | None => if inherited localeName then Builtin localeName else EmptyObject
  end.

(** [messages[key]], read in full; [None] is [undefined]. *)
Definition property_read (messages : Messages) (key : string)
    : option Found :=
  match messages with
  | Flattened m =>
      match m !! key with
      | Some s => Some (Translation s)
      | None =>
          if flattened_is_plain && inherited key
          then Some (Inherited [key] true)
          else None
      end
  | EmptyObject =>
      if inherited key then Some (Inherited [key] true) else None
  | Builtin name =>
      (λ b, Inherited [name; key] b) <$> builtin_property name key
  end.

(** The [for] loop of [lookup], with the reads in full. *)
Fixpoint lookup_proto_loop (st : Service) (key : string)
    (localeNames : list string) : option Found :=
  match localeNames with
  | [] => None
  | localeName :: rest =>
      match property_read (messages_read st localeName) key with
      | Some translation => Some translation
      | None => lookup_proto_loop st key rest
      end
  end.

(** [lookup(key, localeName)], with the reads in full.  [lookup] above is
    what it gives when only assigned entries are read. *)
Definition lookup_proto (st : Service) (key : string) (localeName : JsValue)
    : Completion (option Found) :=
  cbind (_localeWithDefault st localeName) (λ localeNames,
    match localeNames with
    | Some ls => Normal (lookup_proto_loop st key ls)
    | None =>
        Throw (TypeError "Cannot read properties of undefined (reading 'length')")
    end).

(** [exists(key, localeName)], with the reads in full. *)
Definition exists_proto (st : Service) (key : string) (localeName : JsValue)
    : Completion bool :=
  cbind (_localeWithDefault st localeName) (λ localeNames,
    cbind
      (assert ("[ember-intl] locale is unset, cannot lookup '" +:+ key +:+ "'")
         (match localeNames with
          | Some ls => negb (Nat.eqb (length ls) 0)
          | None => false
          end))
      (λ _,
         match localeNames with
         | Some ls =>
             Normal (existsb
                       (λ l,
                          match property_read (messages_read st l) key with
                          | Some v => found_truthy v
                          | None => false
                          end) ls)
         | None =>
             Throw (TypeError "localeNames.some is not a function")
         end)).

(** *** Histories of the service *)

(** What the application and the host do to a service once it exists. *)
Inductive Call :=
  | CallSetLocale (locale : LocaleName)
  | CallSetLocaleProperty (localeName : LocaleName)
  | CallAddTranslations (localeName : string) (payload : NestedStructure)
  | CallFormat (name : FormatterKind) (value : Value)
      (formatOptions : option FormatOptions)
  | CallTurn
  | CallWillDestroy.

(** The service after a call; a call that throws leaves it as it was when
    the error was thrown. *)
Definition perform (c : Call) (st : Service) : Service :=
  match c with
  | CallSetLocale locale => snd (setLocale locale st)
  | CallSetLocaleProperty localeName => snd (locale_set localeName st)
  | CallAddTranslations localeName payload =>
      snd (addTranslations localeName payload st)
  | CallFormat name value formatOptions =>
      snd (serviceFormatterProxy name value formatOptions st)
  | CallTurn => snd (turn st)
  | CallWillDestroy => snd (willDestroy st)
  end.

Definition run (cs : list Call) (st : Service) : Service :=
  foldl (λ s c, perform c s) st cs.

(** The states a service goes through: it is created, initialised, and
    then called. *)
Inductive reachable : Service → Prop :=
  | reachable_init fmts dom bundled :
      reachable (snd (init bundled (blank fmts dom)))
  | reachable_perform c st :
      reachable st → reachable (perform c st).

(** *** Invariants *)

(** The run loop holds no timer of the service, or exactly the one the
    service remembers, which the run loop has handed out. *)
Definition timer_inv (st : Service) : Prop :=
  rl_queue st = []
  ∨ ∃ t, rl_queue st = [t] ∧ _timer st = Some t ∧ t < rl_fresh st.

(** How often the constructor returned an engine for a cache key. *)
Definition constructed (k : option string * Formats) (st : Service) : nat :=
  length (filter (λ entry, entry = (k, true)) (ctor_log st)).

(** How often the constructor was run for a cache key, whether it returned
    or threw. *)
Definition invoked (k : option string * Formats) (st : Service) : nat :=
  length (filter (λ entry, fst entry = k) (ctor_log st)).

(** Every cached engine was built for its key from an object identity that
    is in use, the constructor accepted its configuration, engines under
    different keys are different objects, and the constructor has returned
    once for each key that is cached and never for another. *)
Definition memo_inv (st : Service) : Prop :=
  (∀ k e, memo st !! k = Some e →
     handle e < heap_fresh st
     ∧ (cfg_locale (config e), cfg_formats (config e)) = k
     ∧ report_all onIntlError (engine_reports (config e)) = Normal tt)
  ∧ (∀ k1 k2 e1 e2, memo st !! k1 = Some e1 → memo st !! k2 = Some e2 →
       handle e1 = handle e2 → k1 = k2)
  ∧ (∀ k, constructed k st
          = match memo st !! k with Some _ => 1 | None => 0 end).


(** The outcome of formatting with a given engine: what the engine reports
    goes through [onIntlError], then its output is returned. *)
Definition formatted_by (name : FormatterKind) (intl : IntlShape)
    (value : Value) (formatOptions : option FormatOptions)
    : Completion string :=
  cbind (report_all onIntlError
           (fst (engine_format name intl value formatOptions)))
    (λ _, Normal (snd (engine_format name intl value formatOptions))).

(** *** Frames *)

(** Two services that differ in the engine cache and its bookkeeping
    only. *)
Definition same_but_engines (st st' : Service) : Prop :=
  ∃ c n l,
    st' = mkService (formats st) (_messagesMap st) (_locale st) (_timer st)
            c (rl_fresh st) (rl_queue st) (has_dom st) n (events st) l.

(** Two services with the same engine cache, bookkeeping and format
    configuration. *)
Definition same_engines (st st' : Service) : Prop :=
  memo st' = memo st ∧ heap_fresh st' = heap_fresh st
  ∧ ctor_log st' = ctor_log st ∧ formats st' = formats st.

(** Every cached engine is cached under the service's own format
    configuration and was configured as [createIntl] does it: with the
    locale of its key also as default locale, and the formats also as
    default formats. *)
Definition engine_config_inv (st : Service) : Prop :=
  ∀ l f e, memo st !! (l, f) = Some e →
    f = formats st
    ∧ config e
      = mkIntlConfig l l (formats st) (formats st) (cfg_messages (config e)).

(** ** Properties *)

(** *** The error callback *)

Lemma onIntlError_missing_translation err :
  code err = IntlErrorCode.MISSING_TRANSLATION → onIntlError err = Normal tt.
Proof.
  intros Hcode. unfold onIntlError. rewrite Hcode. reflexivity.
Qed.

Lemma onIntlError_other err :
  code err ≠ IntlErrorCode.MISSING_TRANSLATION →
  onIntlError err = Throw (EngineError err).
Proof.
  intros Hcode. unfold onIntlError.
  destruct (String.eqb_spec (code err) IntlErrorCode.MISSING_TRANSLATION);
    [contradiction | reflexivity].
Qed.

(** C8. The engine error callback returns quietly exactly for an error
    whose code is the missing-translation one, and throws every error with
    another code, the very error it was given, to its caller; in a batch of
    reports the first error of another kind is the one thrown. *)
Theorem onIntlError_swallows_exactly_missing_translation :
  ∀ err : IntlError,
    (onIntlError err = Normal tt
     ↔ code err = IntlErrorCode.MISSING_TRANSLATION)
    ∧ (onIntlError err = Throw (EngineError err)
       ↔ code err ≠ IntlErrorCode.MISSING_TRANSLATION)
    ∧ ∀ swallowed later,
        Forall (λ e, code e = IntlErrorCode.MISSING_TRANSLATION) swallowed →
        code err ≠ IntlErrorCode.MISSING_TRANSLATION →
        report_all onIntlError (swallowed ++ err :: later)
        = Throw (EngineError err).
Proof.
  intros err. split; [|split].
  - split.
    + intros Hq.
      destruct (decide (code err = IntlErrorCode.MISSING_TRANSLATION))
        as [|Hne]; [done|].
      rewrite (onIntlError_other _ Hne) in Hq. discriminate.
    + apply onIntlError_missing_translation.
  - split.
    + intros Ht Hcode.
      rewrite (onIntlError_missing_translation _ Hcode) in Ht. discriminate.
    + apply onIntlError_other.
  - intros swallowed later Hsw Hne.
    induction Hsw as [|e es He _ IH]; simpl.
    + by rewrite (onIntlError_other _ Hne).
    + by rewrite (onIntlError_missing_translation _ He).
Qed.

(** *** Candidate locales *)

Lemma _localeWithDefault_array st xs :
  _localeWithDefault st (VArray xs) = Normal (Some (normalizeLocale <$> xs)).
Proof. reflexivity. Qed.

Lemma _localeWithDefault_returns st localeName :
  ∃ r, _localeWithDefault st localeName = Normal r.
Proof.
  unfold _localeWithDefault.
  destruct localeName; simpl; repeat case_match; eauto.
Qed.

(** *** Lookup with fallback *)

Lemma messages_of_Some st l key v :
  messages_of st l !! key = Some v
  ↔ ∃ m, _messagesMap st !! l = Some m ∧ m !! key = Some v.
Proof.
  unfold messages_of. split.
  - destruct (_messagesMap st !! l) as [m|]; simpl; [eauto|].
    by rewrite lookup_empty.
  - intros (m & -> & Hm). done.
Qed.

Lemma messages_of_None st l key :
  messages_of st l !! key = None
  ↔ ∀ m, _messagesMap st !! l = Some m → m !! key = None.
Proof.
  unfold messages_of. split.
  - intros Hn m Hm. by rewrite Hm in Hn.
  - intros Hall. destruct (_messagesMap st !! l) as [m|]; simpl; [eauto|].
    by rewrite lookup_empty.
Qed.

Lemma lookup_loop_app_found st key pre l post v :
  (∀ l', l' ∈ pre → messages_of st l' !! key = None) →
  messages_of st l !! key = Some v →
  lookup_loop st key (pre ++ l :: post) = Some v.
Proof.
  intros Hpre Hl. induction pre as [|p pre IH]; simpl.
  - by rewrite Hl.
  - rewrite (Hpre p) by constructor. apply IH. intros l' Hin.
    apply Hpre. by constructor.
Qed.

Lemma lookup_loop_not_found st key ls :
  (∀ l, l ∈ ls → messages_of st l !! key = None) →
  lookup_loop st key ls = None.
Proof.
  induction ls as [|l ls IH]; intros Hall; simpl; [done|].
  rewrite (Hall l) by constructor. apply IH. intros l' Hin.
  apply Hall. by constructor.
Qed.

(** Among assigned entries: when the locale argument resolves to the
    candidates [candidates], the loop returns the value the key has in the
    first candidate whose message map defines it, whatever that value is
    (the empty string included), however many candidates before it lack the
    key; and it returns [undefined] when no candidate defines the key, in
    particular when there is no candidate. *)
Lemma lookup_first_defined :
  ∀ (st : Service) (key : string) (localeName : JsValue)
    (candidates : list string),
    _localeWithDefault st localeName = Normal (Some candidates) →
    (∀ pre l post m v,
       candidates = pre ++ l :: post →
       (∀ l' m', l' ∈ pre → _messagesMap st !! l' = Some m' →
                 m' !! key = None) →
       _messagesMap st !! l = Some m → m !! key = Some v →
       lookup st key localeName = Normal (Some v))
    ∧ ((∀ l m, l ∈ candidates → _messagesMap st !! l = Some m →
               m !! key = None) →
       lookup st key localeName = Normal None)
    ∧ (candidates = [] → lookup st key localeName = Normal None).
Proof.
  intros st key localeName candidates Hres.
  unfold lookup. rewrite Hres. simpl. split; [|split].
  - intros pre l post m v -> Hpre Hm Hv. f_equal.
    apply lookup_loop_app_found.
    + intros l' Hin. apply messages_of_None. intros m' Hm'.
      by apply (Hpre l' m').
    + apply messages_of_Some. eauto.
  - intros Hall. f_equal. apply lookup_loop_not_found.
    intros l Hin. apply messages_of_None. intros m Hm. by apply (Hall l m).
  - by intros ->.
Qed.

Lemma lookup_loop_Some st key ls v :
  lookup_loop st key ls = Some v →
  ∃ l, l ∈ ls ∧ messages_of st l !! key = Some v.
Proof.
  induction ls as [|l ls IH]; simpl; [done|].
  destruct (messages_of st l !! key) as [t|] eqn:Hl.
  - intros [= ->]. exists l. split; [constructor | done].
  - intros Hrest. destruct (IH Hrest) as (l' & Hin & Hl').
    exists l'. split; [by constructor | done].
Qed.

Lemma lookup_loop_None st key ls :
  lookup_loop st key ls = None →
  ∀ l, l ∈ ls → messages_of st l !! key = None.
Proof.
  induction ls as [|l0 ls IH]; simpl; intros Hn l Hin;
    [by apply elem_of_nil in Hin|].
  destruct (messages_of st l0 !! key) as [t|] eqn:Hl0; [done|].
  apply elem_of_cons in Hin as [->|Hin]; [done | by apply IH].
Qed.

Lemma lookup_loop_only_empty st key ls :
  (∃ l m, l ∈ ls ∧ _messagesMap st !! l = Some m ∧ m !! key = Some "") →
  (∀ l m v, l ∈ ls → _messagesMap st !! l = Some m →
            m !! key = Some v → v = "") →
  lookup_loop st key ls = Some "".
Proof.
  intros (l & m & Hin & Hm & Hk) Hempty.
  destruct (lookup_loop st key ls) as [v|] eqn:Hloop.
  - apply lookup_loop_Some in Hloop as (l' & Hin' & Hl').
    apply messages_of_Some in Hl' as (m' & Hm' & Hk').
    by rewrite (Hempty l' m' v Hin' Hm' Hk').
  - pose proof (lookup_loop_None _ _ _ Hloop l Hin) as Hnone.
    assert (messages_of st l !! key = Some "") as Hsome
      by (apply messages_of_Some; eauto).
    congruence.
Qed.

(** *** Existence of a translation *)

Lemma truthy_translation_true st l key :
  truthy_translation (messages_of st l !! key) = true
  ↔ ∃ m v, _messagesMap st !! l = Some m ∧ m !! key = Some v ∧ v ≠ "".
Proof.
  split.
  - destruct (messages_of st l !! key) as [v|] eqn:Hv; simpl; [|done].
    intros Hne. apply messages_of_Some in Hv as (m & Hm & Hk).
    exists m, v. repeat split; try done.
    intros ->. discriminate.
  - intros (m & v & Hm & Hk & Hne).
    assert (messages_of st l !! key = Some v) as ->
      by (apply messages_of_Some; eauto).
    simpl. destruct (String.eqb_spec v ""); [contradiction | done].
Qed.

Lemma existsb_truthy_translation st key ls :
  existsb (λ l, truthy_translation (messages_of st l !! key)) ls = true
  ↔ ∃ l m v, l ∈ ls ∧ _messagesMap st !! l = Some m
             ∧ m !! key = Some v ∧ v ≠ "".
Proof.
  rewrite existsb_exists. split.
  - intros (l & Hin & Ht). apply truthy_translation_true in Ht
      as (m & v & Hm & Hk & Hne).
    exists l, m, v. by rewrite list_elem_of_In.
  - intros (l & m & v & Hin & Hm & Hk & Hne). exists l.
    rewrite <- list_elem_of_In. split; [done|].
    apply truthy_translation_true. eauto.
Qed.

Lemma exists_undefined_candidates st key localeName :
  _localeWithDefault st localeName = Normal None →
  throws (exists_ st key localeName) = true.
Proof. intros Hres. unfold exists_. by rewrite Hres. Qed.

(** Among assigned entries: when the locale argument resolves to the
    candidates [candidates], [exists] throws if and only if there is no
    candidate, and what it throws then is the error of its assertion; with
    at least one candidate it returns a boolean that is true exactly when
    some candidate has a non-empty value for the key.  So where the only
    values the candidates have for the key are empty strings, [exists]
    returns false while [lookup] returns the empty string as found. *)
Lemma exists_asserts_candidates_then_truthy :
  ∀ (st : Service) (key : string) (localeName : JsValue)
    (candidates : list string),
    _localeWithDefault st localeName = Normal (Some candidates) →
    (throws (exists_ st key localeName) = true ↔ candidates = [])
    ∧ (candidates = [] →
       exists_ st key localeName
       = Throw (AssertionError
                  ("[ember-intl] locale is unset, cannot lookup '"
                   +:+ key +:+ "'")))
    ∧ (candidates ≠ [] →
       ∃ b, exists_ st key localeName = Normal b
            ∧ (b = true
               ↔ ∃ l m v, l ∈ candidates ∧ _messagesMap st !! l = Some m
                          ∧ m !! key = Some v ∧ v ≠ ""))
    ∧ (candidates ≠ [] →
       (∃ l m, l ∈ candidates ∧ _messagesMap st !! l = Some m
               ∧ m !! key = Some "") →
       (∀ l m v, l ∈ candidates → _messagesMap st !! l = Some m →
                 m !! key = Some v → v = "") →
       exists_ st key localeName = Normal false
       ∧ lookup st key localeName = Normal (Some "")).
Proof.
  intros st key localeName candidates Hres.
  unfold exists_, lookup. rewrite Hres. simpl.
  destruct candidates as [|c cs]; simpl.
  - repeat split; try done.
  - split; [|split; [|split]].
    + split; intros; discriminate.
    + done.
    + intros _. eexists. split; [reflexivity|].
      apply (existsb_truthy_translation st key (c :: cs)).
    + intros _ (l & m & Hin & Hm & Hk) Hempty. split.
      * f_equal.
        destruct (truthy_translation (messages_of st c !! key) ||
                  existsb (λ l0, truthy_translation
                                   (messages_of st l0 !! key)) cs)
          eqn:Hex; [|done].
        apply (existsb_truthy_translation st key (c :: cs)) in Hex
          as (l' & m' & v' & Hin' & Hm' & Hk' & Hne').
        by specialize (Hempty l' m' v' Hin' Hm' Hk').
      * f_equal. apply (lookup_loop_only_empty st key (c :: cs)); eauto.
Qed.

(** *** Reads in full *)

(** Where neither the key nor the locale is a name of [Object.prototype],
    a read finds the assigned entries and nothing else. *)
Lemma property_read_own st l key :
  inherited key = false → inherited l = false →
  property_read (messages_read st l) key
  = Translation <$> (messages_of st l !! key).
Proof.
  intros Hk Hl. unfold messages_read, messages_of, property_read.
  destruct (_messagesMap st !! l) as [m|]; simpl.
  - destruct (m !! key); simpl; [done|]. by rewrite Hk, andb_false_r.
  - by rewrite Hl, Hk, lookup_empty.
Qed.

Lemma lookup_proto_loop_own st key ls :
  inherited key = false → Forall (λ l, inherited l = false) ls →
  lookup_proto_loop st key ls = Translation <$> lookup_loop st key ls.
Proof.
  intros Hk Hls. induction Hls as [|l ls Hl _ IH]; simpl; [done|].
  rewrite (property_read_own st l key Hk Hl).
  destruct (messages_of st l !! key); simpl; [done | exact IH].
Qed.

Lemma lookup_proto_own st key localeName candidates :
  _localeWithDefault st localeName = Normal (Some candidates) →
  inherited key = false → Forall (λ l, inherited l = false) candidates →
  lookup_proto st key localeName
  = match lookup st key localeName with
    | Normal r => Normal (Translation <$> r)
    | Throw e => Throw e
    end.
Proof.
  intros Hres Hk Hls. unfold lookup_proto, lookup. rewrite Hres. simpl.
  by rewrite lookup_proto_loop_own.
Qed.

Lemma existsb_found_own st key ls :
  inherited key = false → Forall (λ l, inherited l = false) ls →
  existsb (λ l, match property_read (messages_read st l) key with
                | Some v => found_truthy v
                | None => false
                end) ls
  = existsb (λ l, truthy_translation (messages_of st l !! key)) ls.
Proof.
  intros Hk Hls. induction Hls as [|l ls Hl _ IH]; simpl; [done|].
  rewrite (property_read_own st l key Hk Hl), IH.
  by destruct (messages_of st l !! key).
Qed.

Lemma exists_proto_own st key localeName candidates :
  _localeWithDefault st localeName = Normal (Some candidates) →
  inherited key = false → Forall (λ l, inherited l = false) candidates →
  exists_proto st key localeName = exists_ st key localeName.
Proof.
  intros Hres Hk Hls. unfold exists_proto, exists_. rewrite Hres. simpl.
  destruct candidates as [|c cs]; [done|].
  cbn [length Nat.eqb negb assert cbind]. f_equal.
  by apply existsb_found_own.
Qed.

(** A candidate without an assigned message map is read as the empty object
    [{}], which has every property of [Object.prototype]. *)
Lemma property_read_unassigned st l key :
  _messagesMap st !! l = None → inherited l = false → inherited key = true →
  property_read (messages_read st l) key = Some (Inherited [key] true).
Proof.
  intros Hm Hl Hk. unfold messages_read. rewrite Hm, Hl. simpl.
  by rewrite Hk.
Qed.

(** C1. When the locale argument resolves to the candidates [candidates],
    neither the key nor a candidate is the name of a property of
    [Object.prototype], and nothing was stored under the name [__proto__],
    [lookup] returns the value the key has in the first candidate whose
    message map defines it, whatever that value is (the empty string
    included), however many candidates before it lack the key; and it
    returns [undefined] when no candidate defines the key, in particular
    when there is no candidate. *)
Theorem lookup_proto_first_defined :
  ∀ (st : Service) (key : string) (localeName : JsValue)
    (candidates : list string),
    _localeWithDefault st localeName = Normal (Some candidates) →
    inherited key = false →
    Forall (λ l, inherited l = false) candidates →
    _messagesMap st !! "__proto__" = None →
    (∀ pre l post m v,
       candidates = pre ++ l :: post →
       (∀ l' m', l' ∈ pre → _messagesMap st !! l' = Some m' →
                 m' !! key = None) →
       _messagesMap st !! l = Some m → m !! key = Some v →
       lookup_proto st key localeName = Normal (Some (Translation v)))
    ∧ ((∀ l m, l ∈ candidates → _messagesMap st !! l = Some m →
               m !! key = None) →
       lookup_proto st key localeName = Normal None)
    ∧ (candidates = [] → lookup_proto st key localeName = Normal None).
Proof.
  intros st key localeName candidates Hres Hk Hls _.
  rewrite (lookup_proto_own st key localeName candidates Hres Hk Hls).
  destruct (lookup_first_defined st key localeName candidates Hres)
    as (Hfound & Hnone & Hempty).
  split; [|split].
  - intros pre l post m v Hc Hpre Hm Hv.
    by rewrite (Hfound pre l post m v Hc Hpre Hm Hv).
  - intros Hall. by rewrite (Hnone Hall).
  - intros Hc. by rewrite (Hempty Hc).
Qed.

(** C5. When the locale argument resolves to the candidates [candidates],
    [exists] throws if and only if there is no candidate, and what it
    throws then is the error of its assertion.  With at least one
    candidate, where neither the key nor a candidate is the name of a
    property of [Object.prototype] and nothing was stored under the name
    [__proto__], it returns a boolean that is true exactly when some
    candidate has a non-empty value for the key; so where the only values
    the candidates have for the key are empty strings, [exists] returns
    false while [lookup] returns the empty string as found. *)
Theorem exists_proto_asserts_candidates_then_truthy :
  ∀ (st : Service) (key : string) (localeName : JsValue)
    (candidates : list string),
    _localeWithDefault st localeName = Normal (Some candidates) →
    (throws (exists_proto st key localeName) = true ↔ candidates = [])
    ∧ (candidates = [] →
       exists_proto st key localeName
       = Throw (AssertionError
                  ("[ember-intl] locale is unset, cannot lookup '"
                   +:+ key +:+ "'")))
    ∧ (candidates ≠ [] →
       inherited key = false →
       Forall (λ l, inherited l = false) candidates →
       _messagesMap st !! "__proto__" = None →
       ∃ b, exists_proto st key localeName = Normal b
            ∧ (b = true
               ↔ ∃ l m v, l ∈ candidates ∧ _messagesMap st !! l = Some m
                          ∧ m !! key = Some v ∧ v ≠ ""))
    ∧ (candidates ≠ [] →
       inherited key = false →
       Forall (λ l, inherited l = false) candidates →
       _messagesMap st !! "__proto__" = None →
       (∃ l m, l ∈ candidates ∧ _messagesMap st !! l = Some m
               ∧ m !! key = Some "") →
       (∀ l m v, l ∈ candidates → _messagesMap st !! l = Some m →
                 m !! key = Some v → v = "") →
       exists_proto st key localeName = Normal false
       ∧ lookup_proto st key localeName = Normal (Some (Translation ""))).
Proof.
  intros st key localeName candidates Hres.
  destruct (exists_asserts_candidates_then_truthy st key localeName
              candidates Hres) as (_ & _ & Htruthy & Hblank).
  split; [|split; [|split]].
  - unfold exists_proto. rewrite Hres. simpl.
    destruct candidates; simpl; [done|]. split; intros; discriminate.
  - intros ->. unfold exists_proto. by rewrite Hres.
  - intros Hne Hk Hls _.
    rewrite (exists_proto_own st key localeName candidates Hres Hk Hls).
    by apply Htruthy.
  - intros Hne Hk Hls _ Hsome Hall.
    rewrite (exists_proto_own st key localeName candidates Hres Hk Hls),
      (lookup_proto_own st key localeName candidates Hres Hk Hls).
    destruct (Hblank Hne Hsome Hall) as [-> ->]. done.
Qed.

(** *** The translation store *)

(** C6. Adding translations for a locale twice leaves the store as adding
    the second payload alone does: the entry of the normalized locale is
    the flattening of the second payload, with nothing of the first; and
    adding the same payload twice gives the store that adding it once
    gives.  Neither call throws. *)
Theorem addTranslations_replaces_wholesale :
  ∀ (st : Service) (localeName : string) (p1 p2 : NestedStructure),
    let st1 := snd (addTranslations localeName p1 st) in
    let st2 := snd (addTranslations localeName p2 st1) in
    fst (addTranslations localeName p1 st) = Normal tt
    ∧ fst (addTranslations localeName p2 st1) = Normal tt
    ∧ translationsFor st2 localeName = Some (flatten p2)
    ∧ st2 = snd (addTranslations localeName p2 st)
    ∧ snd (addTranslations localeName p1 st1) = st1.
Proof.
  intros st localeName p1 p2. simpl.
  unfold translationsFor, addTranslations, modify, set__messagesMap. simpl.
  repeat split.
  - apply lookup_insert_eq.
  - by rewrite insert_insert_eq.
  - by rewrite insert_insert_eq.
Qed.

(** *** Locale arguments of another shape *)

(** C7, as the code has it.  For a locale argument that is neither a
    string nor an array, candidate resolution throws nothing: it returns
    [undefined] when the argument is truthy, and falls back to the active
    locales (the empty list when none is set) when it is falsy. *)
Theorem localeWithDefault_other_shape :
  ∀ (st : Service) (localeName : JsValue),
    is_string localeName = false →
    isArray localeName = false →
    _localeWithDefault st localeName
    = Normal (if truthy localeName then None
              else Some (default [] (_locale st))).
Proof.
  intros st localeName Hs Ha. unfold _localeWithDefault.
  rewrite Hs, Ha. by destruct (truthy localeName).
Qed.

(** *** The active locale *)

Lemma isArrayEqual_true a b :
  isArrayEqual a b = true ↔ b = Some a.
Proof.
  unfold isArrayEqual. destruct b as [b|]; [|done].
  rewrite bool_decide_eq_true. split; [by intros -> | by intros [= ->]].
Qed.

Lemma isArrayEqual_false a b :
  isArrayEqual a b = false ↔ b ≠ Some a.
Proof.
  rewrite <- isArrayEqual_true. by destruct (isArrayEqual a b).
Qed.

Lemma locale_set_unchanged st localeName :
  _locale st = Some (proposed localeName) →
  locale_set localeName st = (Normal (_locale st), st).
Proof.
  intros Hcur. unfold locale_set, bind, gets. simpl.
  assert (isArrayEqual (proposed localeName) (_locale st) = true) as ->
    by by apply isArrayEqual_true.
  reflexivity.
Qed.

(** C2. While the locales of [l1] are active, setting the locale to an
    [l2] that normalizes to the same sequence changes nothing at all: the
    setter, and [setLocale] for an argument it accepts, return with the
    service and the run loop exactly as they were, so the stored sequence
    is the same, no timer has been scheduled or cancelled, no event has
    been recorded, and whatever happens afterwards happens as if the call
    had not been made. *)
Theorem locale_set_equal_is_noop :
  ∀ (st : Service) (l1 l2 : LocaleName),
    normalizeLocale <$> makeArray l1 = normalizeLocale <$> makeArray l2 →
    _locale st = Some (normalizeLocale <$> makeArray l1) →
    locale_set l2 st = (Normal (_locale st), st)
    ∧ (locale_truthy l2 = true → setLocale l2 st = (Normal tt, st))
    ∧ rl_queue (snd (locale_set l2 st)) = rl_queue st
    ∧ _timer (snd (locale_set l2 st)) = _timer st
    ∧ events (snd (locale_set l2 st)) = events st
    ∧ ∀ later : list Call,
        events (run later (snd (locale_set l2 st))) = events (run later st).
Proof.
  intros st l1 l2 Heq Hcur. rewrite Heq in Hcur.
  change (_locale st = Some (proposed l2)) in Hcur.
  pose proof (locale_set_unchanged st l2 Hcur) as Hset.
  rewrite Hset. simpl. repeat split; try done.
  intros Ht. unfold setLocale, bind, lift, assert. rewrite Ht, Hset. done.
Qed.

(** *** Scheduling of the notification *)

Lemma same_but_engines_refl st : same_but_engines st st.
Proof. exists (memo st), (heap_fresh st), (ctor_log st). by destruct st. Qed.

Lemma createIntl_frame locale fmts st :
  same_but_engines st (snd (createIntl locale fmts st)).
Proof.
  unfold createIntl, bind, gets, ret, modify, engine_createIntl. simpl.
  destruct (memo st !! (locale, fmts)); simpl;
    [apply same_but_engines_refl|].
  destruct (report_all onIntlError _); simpl; by eexists _, _, _.
Qed.

Lemma serviceFormatterProxy_frame name value formatOptions st :
  same_but_engines st (snd (serviceFormatterProxy name value formatOptions st)).
Proof.
  unfold serviceFormatterProxy, formatter_format, getIntl, reads, bind,
    gets, lift, ret. simpl.
  destruct (proxy_locale st formatOptions) as [locale|e]; simpl;
    [|apply same_but_engines_refl].
  pose proof (createIntl_frame (primary locale) (formats st) st) as Hframe.
  destruct (createIntl (primary locale) (formats st) st) as [[intl|e] st'];
    simpl in *; [|done].
  by destruct (report_all onIntlError _).
Qed.

Lemma timer_inv_same_but_engines st st' :
  same_but_engines st st' → timer_inv st → timer_inv st'.
Proof. intros (c & n & l & ->). done. Qed.

Lemma filter_other_timer (t : nat) :
  filter (λ t', t' ≠ t) [t] = [].
Proof. by rewrite filter_cons_False, filter_nil by (intros Hne; by apply Hne). Qed.

Lemma cancel_own_timer st :
  timer_inv st →
  filter (λ t', t' ≠ default 0 (_timer st)) (rl_queue st) = []
  ∧ (_timer st = None → rl_queue st = []).
Proof.
  intros [Hq|(t & Hq & Ht & _)]; rewrite Hq.
  - done.
  - rewrite Ht. simpl. split; [apply filter_other_timer | done].
Qed.

(** What the setter does when the proposed locales differ from the active
    ones. *)
Lemma locale_set_changed st localeName :
  timer_inv st →
  _locale st ≠ Some (proposed localeName) →
  locale_set localeName st
  = (Normal (Some (proposed localeName)),
     mkService (formats st) (_messagesMap st) (Some (proposed localeName))
       (Some (rl_fresh st)) (memo st) (S (rl_fresh st)) [rl_fresh st]
       (has_dom st) (heap_fresh st) (events st) (ctor_log st)).
Proof.
  intros Hinv Hne. apply isArrayEqual_false in Hne.
  destruct (cancel_own_timer st Hinv) as [Hfilter Hnone].
  unfold locale_set, bind, gets, modify, next, cancel. simpl. rewrite Hne.
  simpl. destruct (_timer st) as [t|] eqn:Ht; simpl in *.
  - unfold set_runloop, set__timer, set__locale. simpl.
    by rewrite Hfilter.
  - unfold set_runloop, set__timer, set__locale, ret. simpl.
    by rewrite (Hnone eq_refl).
Qed.

Lemma locale_set_timer_inv st localeName :
  timer_inv st → timer_inv (snd (locale_set localeName st)).
Proof.
  intros Hinv.
  destruct (decide (_locale st = Some (proposed localeName))) as [Heq|Hne].
  - by rewrite (locale_set_unchanged _ _ Heq).
  - rewrite (locale_set_changed _ _ Hinv Hne). right.
    exists (rl_fresh st). simpl. repeat split; lia.
Qed.

Lemma setLocale_truthy st locale :
  locale_truthy locale = true →
  setLocale locale st = (Normal tt, snd (locale_set locale st))
  ∧ ∃ r, fst (locale_set locale st) = Normal r.
Proof.
  intros Ht. unfold setLocale, bind, lift, assert, ret. rewrite Ht.
  destruct (decide (_locale st = Some (proposed locale))) as [Heq|Hne].
  - rewrite (locale_set_unchanged _ _ Heq). eauto.
  - unfold locale_set, bind, gets, modify, next. simpl.
    apply isArrayEqual_false in Hne. rewrite Hne. simpl.
    destruct (cancel (_timer st) _) as [[[]|e] st'] eqn:Hc; simpl; eauto.
    unfold cancel, ret, modify in Hc. by destruct (_timer st).
Qed.

Lemma setLocale_timer_inv st locale :
  timer_inv st → timer_inv (snd (setLocale locale st)).
Proof.
  intros Hinv. destruct (locale_truthy locale) eqn:Ht.
  - destruct (setLocale_truthy st locale Ht) as [-> _]. simpl.
    by apply locale_set_timer_inv.
  - unfold setLocale, bind, lift, assert. by rewrite Ht.
Qed.

Lemma notify_frame st :
  rl_queue (snd (notify st)) = rl_queue st
  ∧ _timer (snd (notify st)) = _timer st
  ∧ rl_fresh (snd (notify st)) = rl_fresh st.
Proof.
  unfold notify, trigger_localeChanged, _updateDocumentLanguage, bind, gets,
    modify, raise, ret. simpl.
  destruct (has_dom st), (_locale st); done.
Qed.

Lemma run_timers_frame ts st :
  rl_queue (snd (run_timers ts st)) = rl_queue st
  ∧ _timer (snd (run_timers ts st)) = _timer st
  ∧ rl_fresh (snd (run_timers ts st)) = rl_fresh st.
Proof.
  revert st. induction ts as [|t ts IH]; intros st; simpl; [done|].
  unfold bind. pose proof (notify_frame st) as (Hq & Ht & Hf).
  destruct (notify st) as [[[]|e] st']; simpl in *; [|done].
  destruct (IH st') as (Hq' & Ht' & Hf'). by rewrite Hq', Ht', Hf'.
Qed.

Lemma turn_empties_queue st : rl_queue (snd (turn st)) = [].
Proof.
  unfold turn, bind, gets, modify. simpl.
  by destruct (run_timers_frame (rl_queue st)
                 (set_runloop (rl_fresh st) [] st)) as (-> & _).
Qed.

Lemma perform_timer_inv c st : timer_inv st → timer_inv (perform c st).
Proof.
  intros Hinv. destruct c; simpl.
  - by apply setLocale_timer_inv.
  - by apply locale_set_timer_inv.
  - done.
  - eapply timer_inv_same_but_engines;
      [apply serviceFormatterProxy_frame | done].
  - left. apply turn_empties_queue.
  - left. unfold willDestroy, bind, gets, cancel, modify, ret. simpl.
    destruct (cancel_own_timer st Hinv) as [Hfilter Hnone].
    destruct (_timer st) as [t|]; simpl in *; [done | by apply Hnone].
Qed.

Lemma hydrate_frame bundled st :
  rl_queue (snd (hydrate bundled st)) = rl_queue st
  ∧ _timer (snd (hydrate bundled st)) = _timer st
  ∧ rl_fresh (snd (hydrate bundled st)) = rl_fresh st
  ∧ memo (snd (hydrate bundled st)) = memo st
  ∧ heap_fresh (snd (hydrate bundled st)) = heap_fresh st
  ∧ ctor_log (snd (hydrate bundled st)) = ctor_log st.
Proof.
  revert st. induction bundled as [|[l p] bundled IH]; intros st; simpl;
    [done|].
  unfold bind, addTranslations, modify. simpl.
  destruct (IH (set__messagesMap
                  (<[normalizeLocale l:=flatten p]> (_messagesMap st)) st))
    as (-> & -> & -> & -> & -> & ->).
  done.
Qed.

Lemma init_blank bundled fmts dom :
  ∃ st0,
    snd (init bundled (blank fmts dom)) = snd (hydrate bundled st0)
    ∧ rl_queue st0 = [0] ∧ _timer st0 = Some 0 ∧ rl_fresh st0 = 1
    ∧ memo st0 = ∅ ∧ heap_fresh st0 = 0 ∧ ctor_log st0 = [].
Proof.
  eexists. split; [reflexivity|]. done.
Qed.

Lemma reachable_timer_inv st : reachable st → timer_inv st.
Proof.
  induction 1 as [fmts dom bundled|c st _ IH].
  - destruct (init_blank bundled fmts dom)
      as (st0 & -> & Hq & Ht & Hf & _).
    destruct (hydrate_frame bundled st0) as (Hq' & Ht' & Hf' & _).
    right. exists 0. rewrite Hq', Ht', Hf', Hq, Ht, Hf. repeat split; lia.
  - by apply perform_timer_inv.
Qed.

Lemma turn_single st t ls :
  rl_queue st = [t] → _locale st = Some ls →
  fst (turn st) = Normal tt
  ∧ rl_queue (snd (turn st)) = []
  ∧ events (snd (turn st))
    = events st ++ LocaleChanged (Some ls)
        :: (if has_dom st then [DocumentLang (head ls)] else []).
Proof.
  intros Hq Hl.
  unfold turn, bind, gets, modify. simpl. rewrite Hq. simpl.
  unfold notify, trigger_localeChanged, _updateDocumentLanguage, bind, gets,
    modify, raise, ret. simpl. rewrite Hl.
  destruct (has_dom st); simpl; repeat split; try done.
  by rewrite <- app_assoc.
Qed.

Lemma setLocale_twice st v1 v2 :
  timer_inv st →
  locale_truthy v1 = true → locale_truthy v2 = true →
  _locale st ≠ Some (proposed v1) ∨ proposed v1 ≠ proposed v2 →
  let st2 := snd (setLocale v2 (snd (setLocale v1 st))) in
  (∃ t, rl_queue st2 = [t])
  ∧ _locale st2 = Some (proposed v2)
  ∧ events st2 = events st
  ∧ has_dom st2 = has_dom st.
Proof.
  intros Hinv Ht1 Ht2 Hchange. simpl.
  destruct (setLocale_truthy st v1 Ht1) as [-> _]. simpl.
  destruct (setLocale_truthy (snd (locale_set v1 st)) v2 Ht2) as [-> _].
  simpl.
  pose proof (locale_set_timer_inv st v1 Hinv) as Hinv1.
  destruct (decide (_locale st = Some (proposed v1))) as [Heq1|Hne1].
  - destruct Hchange as [Hc|Hc]; [done|].
    rewrite (locale_set_unchanged _ _ Heq1) in *. simpl in *.
    rewrite locale_set_changed; [simpl; eauto | done | congruence].
  - rewrite (locale_set_changed _ _ Hinv Hne1) in *. simpl in *.
    destruct (decide (proposed v1 = proposed v2)) as [Heq2|Hne2].
    + rewrite locale_set_unchanged; simpl; [|by rewrite Heq2].
      rewrite Heq2. eauto.
    + rewrite locale_set_changed; [simpl; eauto | done | simpl; congruence].
Qed.

(** C3. In every state the service reaches, at most one notification is
    scheduled.  A call of the setter with locales other than the active
    ones leaves exactly one timer in the run loop: a new one, which the
    service remembers, whatever was scheduled before being gone.  And when
    [setLocale] is called twice before the run loop turns, not both times
    with the locales that are already active, then that turn fires the
    [localeChanged] event exactly once, with the locales of the second
    call active (and writes their first as the document language when
    there is a document), and nothing stays scheduled. *)
Theorem notification_is_coalesced :
  ∀ st : Service,
    reachable st →
    length (rl_queue st) ≤ 1
    ∧ (∀ localeName,
         _locale st ≠ Some (proposed localeName) →
         let st' := snd (locale_set localeName st) in
         rl_queue st' = [rl_fresh st]
         ∧ _timer st' = Some (rl_fresh st)
         ∧ rl_fresh st ∉ rl_queue st)
    ∧ (∀ v1 v2,
         locale_truthy v1 = true → locale_truthy v2 = true →
         _locale st ≠ Some (proposed v1) ∨ proposed v1 ≠ proposed v2 →
         let st2 := snd (setLocale v2 (snd (setLocale v1 st))) in
         length (rl_queue st2) = 1
         ∧ _locale st2 = Some (proposed v2)
         ∧ fst (turn st2) = Normal tt
         ∧ rl_queue (snd (turn st2)) = []
         ∧ events (snd (turn st2))
           = events st ++ LocaleChanged (Some (proposed v2))
               :: (if has_dom st
                   then [DocumentLang (head (proposed v2))] else [])).
Proof.
  intros st Hreach. pose proof (reachable_timer_inv st Hreach) as Hinv.
  split; [|split].
  - destruct Hinv as [->|(t & -> & _)]; simpl; lia.
  - intros localeName Hne. simpl.
    rewrite (locale_set_changed _ _ Hinv Hne). simpl.
    repeat split.
    destruct Hinv as [->|(t & -> & _ & Hlt)].
    + apply not_elem_of_nil.
    + intros Hin%list_elem_of_singleton. lia.
  - intros v1 v2 Ht1 Ht2 Hchange.
    destruct (setLocale_twice st v1 v2 Hinv Ht1 Ht2 Hchange)
      as ((t & Hq) & Hl & Hev & Hdom).
    simpl in *. rewrite Hq. split; [done|]. split; [done|].
    destruct (turn_single _ t _ Hq Hl) as (Hok & Hempty & Hevents).
    rewrite Hok, Hempty, Hevents, Hev, Hdom. done.
Qed.

(** *** The engine cache *)

Lemma createIntl_cached locale fmts st e :
  memo st !! (locale, fmts) = Some e →
  createIntl locale fmts st = (Normal e, st).
Proof.
  intros Hc. unfold createIntl, bind, gets, ret. simpl. by rewrite Hc.
Qed.

Lemma createIntl_constructs locale fmts st :
  memo st !! (locale, fmts) = None →
  report_all onIntlError
    (engine_reports
       (mkIntlConfig locale locale fmts fmts
          (_messagesMap st !! property_name locale))) = Normal tt →
  createIntl locale fmts st
  = (Normal (mkIntlShape (heap_fresh st)
               (mkIntlConfig locale locale fmts fmts
                  (_messagesMap st !! property_name locale))),
     mkService (formats st) (_messagesMap st) (_locale st) (_timer st)
       (<[(locale, fmts) :=
            mkIntlShape (heap_fresh st)
              (mkIntlConfig locale locale fmts fmts
                 (_messagesMap st !! property_name locale))]> (memo st))
       (rl_fresh st) (rl_queue st) (has_dom st) (S (heap_fresh st))
       (events st) (ctor_log st ++ [((locale, fmts), true)])).
Proof.
  intros Hc Hok.
  unfold createIntl, bind, gets, ret, modify, engine_createIntl. simpl.
  rewrite Hc. simpl. rewrite Hok. reflexivity.
Qed.

Lemma createIntl_rejected locale fmts st err :
  memo st !! (locale, fmts) = None →
  report_all onIntlError
    (engine_reports
       (mkIntlConfig locale locale fmts fmts
          (_messagesMap st !! property_name locale))) = Throw err →
  createIntl locale fmts st
  = (Throw err, set_ctor_log (ctor_log st ++ [((locale, fmts), false)]) st).
Proof.
  intros Hc Hko.
  unfold createIntl, bind, gets, ret, modify, engine_createIntl. simpl.
  rewrite Hc. simpl. rewrite Hko. reflexivity.
Qed.

Lemma createIntl_returns locale fmts st e st1 :
  createIntl locale fmts st = (Normal e, st1) →
  memo st1 !! (locale, fmts) = Some e
  ∧ formats st1 = formats st
  ∧ (memo st !! (locale, fmts) = None →
     cfg_messages (config e) = _messagesMap st !! property_name locale).
Proof.
  destruct (memo st !! (locale, fmts)) as [e0|] eqn:Hc.
  - rewrite (createIntl_cached _ _ _ _ Hc). by intros [= <- <-].
  - destruct (report_all onIntlError
                (engine_reports
                   (mkIntlConfig locale locale fmts fmts
                      (_messagesMap st !! property_name locale))))
      as [[]|err] eqn:Hr.
    + rewrite (createIntl_constructs _ _ _ Hc Hr). intros [= <- <-]. simpl.
      by rewrite lookup_insert_eq.
    + by rewrite (createIntl_rejected _ _ _ _ Hc Hr).
Qed.

Lemma getIntl_returns locale st e st1 :
  getIntl locale st = (Normal e, st1) →
  memo st1 !! (primary locale, formats st) = Some e
  ∧ formats st1 = formats st
  ∧ (memo st !! (primary locale, formats st) = None →
     cfg_messages (config e)
     = _messagesMap st !! property_name (primary locale)).
Proof. apply createIntl_returns. Qed.

Lemma getIntl_cached locale st e :
  memo st !! (primary locale, formats st) = Some e →
  getIntl locale st = (Normal e, st).
Proof. apply createIntl_cached. Qed.

Lemma constructed_snoc k st entry st' :
  ctor_log st' = ctor_log st ++ [entry] →
  constructed k st'
  = constructed k st + (if decide (entry = (k, true)) then 1 else 0).
Proof.
  intros Hlog. unfold constructed. rewrite Hlog, filter_app, length_app.
  f_equal. rewrite filter_cons. by case_decide.
Qed.

Lemma createIntl_memo_inv locale fmts st :
  memo_inv st → memo_inv (snd (createIntl locale fmts st)).
Proof.
  intros (Hwf & Hinj & Hcount).
  destruct (memo st !! (locale, fmts)) as [e0|] eqn:Hc.
  { rewrite (createIntl_cached _ _ _ _ Hc). simpl. by unfold memo_inv. }
  destruct (report_all onIntlError
              (engine_reports
                 (mkIntlConfig locale locale fmts fmts
                    (_messagesMap st !! property_name locale))))
    as [[]|err] eqn:Hr.
  - rewrite (createIntl_constructs _ _ _ Hc Hr). unfold memo_inv. simpl.
    split; [|split]; simpl.
    + intros k e. rewrite lookup_insert. case_decide as Hk.
      * intros [= <-]. simpl. repeat split; [lia | done | done].
      * intros He. destruct (Hwf k e He) as (Hlt & Hkey & Hacc).
        repeat split; [lia | done | done].
    + intros k1 k2 e1 e2. rewrite !lookup_insert.
      repeat case_decide; subst.
      * done.
      * intros [= <-] He2 Hh. simpl in Hh.
        destruct (Hwf k2 e2 He2) as (Hlt & _). lia.
      * intros He1 [= <-] Hh. simpl in Hh.
        destruct (Hwf k1 e1 He1) as (Hlt & _). lia.
      * apply Hinj.
    + intros k. erewrite constructed_snoc by reflexivity.
      rewrite Hcount. destruct (decide ((locale, fmts) = k)) as [<-|Hk].
      * by rewrite lookup_insert_eq, Hc, decide_True.
      * rewrite lookup_insert_ne, decide_False by congruence. lia.
  - rewrite (createIntl_rejected _ _ _ _ Hc Hr). unfold memo_inv. simpl.
    split; [|split]; simpl; try done.
    intros k. erewrite constructed_snoc by reflexivity.
    rewrite decide_False by done. rewrite Hcount. lia.
Qed.

Lemma locale_set_same_engines localeName st :
  same_engines st (snd (locale_set localeName st)).
Proof.
  unfold locale_set, bind, gets, modify, next, cancel, ret. simpl.
  destruct (negb _); simpl; [|done].
  by destruct (_timer st).
Qed.

Lemma setLocale_same_engines locale st :
  same_engines st (snd (setLocale locale st)).
Proof.
  unfold setLocale, bind, lift, assert, ret.
  destruct (locale_truthy locale); simpl; [|done].
  pose proof (locale_set_same_engines locale st) as Hs.
  by destruct (locale_set locale st) as [[r|e] st'].
Qed.

Lemma notify_same_engines st : same_engines st (snd (notify st)).
Proof.
  unfold notify, trigger_localeChanged, _updateDocumentLanguage, bind, gets,
    modify, raise, ret. simpl.
  by destruct (has_dom st), (_locale st).
Qed.

Lemma run_timers_same_engines ts st :
  same_engines st (snd (run_timers ts st)).
Proof.
  revert st. induction ts as [|t ts IH]; intros st; simpl; [done|].
  unfold bind. pose proof (notify_same_engines st) as Hn.
  destruct (notify st) as [[[]|e] st']; simpl in *; [|done].
  destruct Hn as (Hm & Hh & Hl & Hf), (IH st') as (Hm' & Hh' & Hl' & Hf').
  unfold same_engines. by rewrite Hm', Hh', Hl', Hf'.
Qed.

Lemma perform_same_engines c st :
  (∀ name value formatOptions, c ≠ CallFormat name value formatOptions) →
  same_engines st (perform c st).
Proof.
  intros Hc. destruct c; simpl.
  - apply setLocale_same_engines.
  - apply locale_set_same_engines.
  - done.
  - by destruct (Hc name value formatOptions).
  - unfold turn, bind, gets, modify. simpl.
    apply (run_timers_same_engines (rl_queue st)
             (set_runloop (rl_fresh st) [] st)).
  - unfold willDestroy, bind, gets, cancel, modify, ret. simpl.
    by destruct (_timer st).
Qed.

Lemma serviceFormatterProxy_state name value formatOptions st :
  snd (serviceFormatterProxy name value formatOptions st) = st
  ∨ ∃ locale,
      proxy_locale st formatOptions = Normal locale
      ∧ snd (serviceFormatterProxy name value formatOptions st)
        = snd (getIntl locale st).
Proof.
  unfold serviceFormatterProxy, formatter_format, reads, bind, lift, ret.
  simpl.
  destruct (proxy_locale st formatOptions) as [locale|e]; simpl;
    [right; exists locale; split; [done|] | by left].
  destruct (getIntl locale st) as [[intl|e] st']; simpl; [|done].
  by destruct (report_all onIntlError _).
Qed.

Lemma perform_memo_inv c st : memo_inv st → memo_inv (perform c st).
Proof.
  intros Hinv.
  assert (∀ st', same_engines st st' → memo_inv st') as Hsame.
  { intros st' (Hm & Hh & Hl & _). unfold memo_inv, constructed.
    by rewrite Hm, Hh, Hl. }
  destruct c; try (apply Hsame, perform_same_engines; by intros).
  simpl.
  destruct (serviceFormatterProxy_state name value formatOptions st)
    as [->|(locale & _ & ->)]; [done|].
  by apply createIntl_memo_inv.
Qed.

Lemma reachable_memo_inv st : reachable st → memo_inv st.
Proof.
  induction 1 as [fmts dom bundled|c st _ IH].
  - destruct (init_blank bundled fmts dom)
      as (st0 & -> & _ & _ & _ & Hm & Hh & Hl).
    destruct (hydrate_frame bundled st0) as (_ & _ & _ & Hm' & Hh' & Hl').
    unfold memo_inv, constructed. rewrite Hm', Hh', Hl', Hm, Hl.
    repeat split; try done.
  - by apply perform_memo_inv.
Qed.

(** Nothing the application or the host does takes an engine out of the
    cache or replaces it, and nothing changes the format configuration. *)
Lemma createIntl_memo_mono locale fmts st k e :
  memo st !! k = Some e →
  memo (snd (createIntl locale fmts st)) !! k = Some e.
Proof.
  intros Hk.
  destruct (memo st !! (locale, fmts)) as [e0|] eqn:Hc.
  { by rewrite (createIntl_cached _ _ _ _ Hc). }
  destruct (report_all onIntlError
              (engine_reports
                 (mkIntlConfig locale locale fmts fmts
                    (_messagesMap st !! property_name locale))))
    as [[]|err] eqn:Hr.
  - rewrite (createIntl_constructs _ _ _ Hc Hr). simpl.
    rewrite lookup_insert_ne; [done | congruence].
  - by rewrite (createIntl_rejected _ _ _ _ Hc Hr).
Qed.

Lemma perform_memo_mono c st k e :
  memo st !! k = Some e →
  memo (perform c st) !! k = Some e ∧ formats (perform c st) = formats st.
Proof.
  intros Hk.
  assert (∀ st', same_engines st st' →
                 memo st' !! k = Some e ∧ formats st' = formats st) as Hsame.
  { intros st' (Hm & _ & _ & Hf). by rewrite Hm, Hf. }
  destruct c; try (apply Hsame, perform_same_engines; by intros).
  simpl.
  destruct (serviceFormatterProxy_frame name value formatOptions st)
    as (c & n & l & Hst).
  split; [|by rewrite Hst].
  destruct (serviceFormatterProxy_state name value formatOptions st)
    as [->|(locale & _ & ->)]; [done|].
  by apply createIntl_memo_mono.
Qed.

Lemma run_memo_mono cs st k e :
  memo st !! k = Some e →
  memo (run cs st) !! k = Some e ∧ formats (run cs st) = formats st.
Proof.
  revert st. induction cs as [|c cs IH]; intros st Hk; simpl; [done|].
  destruct (perform_memo_mono c st k e Hk) as [Hk' Hf'].
  destruct (IH _ Hk') as [Hk'' Hf'']. by rewrite Hf'', Hf'.
Qed.

Lemma invoked_snoc k st entry st' :
  ctor_log st' = ctor_log st ++ [entry] →
  invoked k st' = invoked k st + (if decide (fst entry = k) then 1 else 0).
Proof.
  intros Hlog. unfold invoked. rewrite Hlog, filter_app, length_app.
  f_equal. rewrite filter_cons. by case_decide.
Qed.

Lemma createIntl_invoked_cached locale fmts st k e :
  memo st !! k = Some e →
  invoked k (snd (createIntl locale fmts st)) = invoked k st.
Proof.
  intros Hk.
  destruct (memo st !! (locale, fmts)) as [e0|] eqn:Hc.
  { by rewrite (createIntl_cached _ _ _ _ Hc). }
  assert ((locale, fmts) ≠ k) as Hne by congruence.
  destruct (report_all onIntlError
              (engine_reports
                 (mkIntlConfig locale locale fmts fmts
                    (_messagesMap st !! property_name locale))))
    as [[]|err] eqn:Hr.
  - rewrite (createIntl_constructs _ _ _ Hc Hr).
    erewrite invoked_snoc by reflexivity. simpl.
    rewrite decide_False by done. lia.
  - rewrite (createIntl_rejected _ _ _ _ Hc Hr).
    erewrite invoked_snoc by reflexivity. simpl.
    rewrite decide_False by done. lia.
Qed.

Lemma perform_invoked_cached c st k e :
  memo st !! k = Some e → invoked k (perform c st) = invoked k st.
Proof.
  intros Hk.
  assert (∀ st', same_engines st st' → invoked k st' = invoked k st) as Hsame.
  { intros st' (_ & _ & Hl & _). unfold invoked. by rewrite Hl. }
  destruct c; try (apply Hsame, perform_same_engines; by intros).
  simpl.
  destruct (serviceFormatterProxy_state name value formatOptions st)
    as [->|(locale & _ & ->)]; [done|].
  by apply (createIntl_invoked_cached _ _ _ _ e).
Qed.

Lemma run_invoked_cached cs st k e :
  memo st !! k = Some e → invoked k (run cs st) = invoked k st.
Proof.
  revert st. induction cs as [|c cs IH]; intros st Hk; simpl; [done|].
  destruct (perform_memo_mono c st k e Hk) as [Hk' _].
  rewrite (IH _ Hk'). by apply (perform_invoked_cached c st k e).
Qed.

Lemma run_reachable cs st : reachable st → reachable (run cs st).
Proof.
  revert st. induction cs as [|c cs IH]; intros st Hr; simpl; [done|].
  apply IH. by constructor.
Qed.

Lemma run_memo_inv cs st : memo_inv st → memo_inv (run cs st).
Proof.
  revert st. induction cs as [|c cs IH]; intros st Hinv; simpl; [done|].
  by apply IH, perform_memo_inv.
Qed.

Lemma getIntl_memo_inv locale st :
  memo_inv st → memo_inv (snd (getIntl locale st)).
Proof. apply createIntl_memo_inv. Qed.

(** C4. In every state the service reaches, once a call to the engine
    cache has returned an engine for a locale (and the format
    configuration of the service), every further call for that locale
    returns that same engine object and leaves everything as it is, the
    record of constructor runs included, whatever the application and the
    host have done in between: the constructor is not run for that pair
    again.  The constructor has returned for that pair exactly once, and
    for no pair more than once.  A call for another primary locale returns
    an engine that is a different object and leaves the first one in the
    cache. *)
Theorem engine_cache_is_memoization :
  ∀ (st : Service) (locale : option (list string)) (e : IntlShape)
    (st1 : Service),
    reachable st →
    getIntl locale st = (Normal e, st1) →
    getIntl locale st1 = (Normal e, st1)
    ∧ (∀ later : list Call,
         getIntl locale (run later st1) = (Normal e, run later st1)
         ∧ invoked (primary locale, formats st) (run later st1)
           = invoked (primary locale, formats st) st1
         ∧ constructed (primary locale, formats st) (run later st1) = 1
         ∧ ∀ k, constructed k (run later st1) ≤ 1)
    ∧ (∀ locale' e' st2,
         primary locale' ≠ primary locale →
         getIntl locale' st1 = (Normal e', st2) →
         handle e' ≠ handle e
         ∧ memo st2 !! (primary locale, formats st) = Some e
         ∧ getIntl locale st2 = (Normal e, st2)).
Proof.
  intros st locale e st1 Hreach Hget.
  pose proof (reachable_memo_inv st Hreach) as Hinv.
  pose proof (getIntl_memo_inv locale st Hinv) as Hinv1.
  rewrite Hget in Hinv1. simpl in Hinv1.
  destruct (getIntl_returns _ _ _ _ Hget) as (Hmemo & Hfmts & _).
  split; [|split].
  - apply getIntl_cached. by rewrite Hfmts.
  - intros later.
    destruct (run_memo_mono later st1 _ _ Hmemo) as [Hm Hf].
    destruct (run_memo_inv later st1 Hinv1) as (_ & _ & Hcount).
    split; [|split; [|split]].
    + apply getIntl_cached. by rewrite Hf, Hfmts.
    + by apply (run_invoked_cached later st1 _ e).
    + by rewrite Hcount, Hm.
    + intros k. rewrite Hcount. destruct (memo _ !! k); lia.
  - intros locale' e' st2 Hne Hget'.
    pose proof (getIntl_memo_inv locale' st1 Hinv1) as Hinv2.
    rewrite Hget' in Hinv2. simpl in Hinv2.
    destruct (getIntl_returns _ _ _ _ Hget') as (Hmemo' & Hfmts' & _).
    assert (memo st2 !! (primary locale, formats st) = Some e) as Hkept.
    { pose proof (createIntl_memo_mono (primary locale') (formats st1) st1
                    _ _ Hmemo) as Hmono.
      unfold getIntl, bind, gets in Hget'. simpl in Hget'.
      by rewrite Hget' in Hmono. }
    split; [|split; [done|]].
    + intros Hh. destruct Hinv2 as (_ & Hinj & _).
      specialize (Hinj _ _ _ _ Hmemo' Hkept Hh). congruence.
    + apply getIntl_cached. by rewrite Hfmts', Hfmts.
Qed.

(** *** Engines and later translations *)

Lemma serviceFormatterProxy_with_engine name value formatOptions st
    locale e :
  proxy_locale st formatOptions = Normal locale →
  memo st !! (primary locale, formats st) = Some e →
  serviceFormatterProxy name value formatOptions st
  = (formatted_by name e value formatOptions, st).
Proof.
  intros Hloc Hm.
  unfold serviceFormatterProxy, formatter_format, reads, bind, lift, ret,
    formatted_by.
  rewrite Hloc. simpl. rewrite (getIntl_cached _ _ _ Hm).
  by destruct (report_all onIntlError _).
Qed.

(** C10. An engine that the cache has just built holds the messages the
    store had for its locale at that moment.  When translations are added
    afterwards, for any locale, the store has the new flattened map for
    that locale, but the cache is untouched: it returns the same engine
    with the same messages, and every formatting call that resolves to
    that primary locale is answered by that engine, so its outcome is the
    one the old messages give. *)
Theorem engine_keeps_messages_of_construction :
  ∀ (st : Service) (locale : option (list string)) (e : IntlShape)
    (st1 : Service),
    getIntl locale st = (Normal e, st1) →
    (memo st !! (primary locale, formats st) = None →
     cfg_messages (config e)
     = _messagesMap st !! property_name (primary locale))
    ∧ ∀ (localeName : string) (payload : NestedStructure),
        let st2 := snd (addTranslations localeName payload st1) in
        translationsFor st2 localeName = Some (flatten payload)
        ∧ memo st2 = memo st1
        ∧ getIntl locale st2 = (Normal e, st2)
        ∧ ∀ name value formatOptions locale',
            proxy_locale st2 formatOptions = Normal locale' →
            primary locale' = primary locale →
            serviceFormatterProxy name value formatOptions st2
            = (formatted_by name e value formatOptions, st2).
Proof.
  intros st locale e st1 Hget.
  destruct (getIntl_returns _ _ _ _ Hget) as (Hmemo & Hfmts & Hsnap).
  split; [done|]. intros localeName payload. simpl.
  unfold translationsFor, addTranslations, modify. simpl.
  split; [apply lookup_insert_eq|]. split; [done|].
  assert (memo (set__messagesMap
                  (<[normalizeLocale localeName:=flatten payload]>
                     (_messagesMap st1)) st1)
          !! (primary locale, formats st) = Some e) as Hm2 by done.
  split.
  - apply getIntl_cached. simpl. by rewrite Hfmts.
  - intros name value formatOptions locale' Hloc Hprim.
    apply (serviceFormatterProxy_with_engine _ _ _ _ locale'); [done|].
    simpl. by rewrite Hprim, Hfmts.
Qed.

(** *** The primary locale of a formatting call *)






(** ** More properties of the service *)

(** *** Setting the locale *)

Lemma locale_set_effect localeName st :
  ∃ timer fresh queue,
    locale_set localeName st
    = (Normal (Some (proposed localeName)),
       mkService (formats st) (_messagesMap st) (Some (proposed localeName))
         timer (memo st) fresh queue (has_dom st) (heap_fresh st)
         (events st) (ctor_log st)).
Proof.
  destruct (decide (_locale st = Some (proposed localeName))) as [Heq|Hne].
  - exists (_timer st), (rl_fresh st), (rl_queue st).
    rewrite (locale_set_unchanged _ _ Heq), Heq. f_equal.
    destruct st; simpl in *. by rewrite Heq.
  - apply isArrayEqual_false in Hne.
    unfold locale_set, bind, gets, modify, next, cancel, ret. simpl.
    rewrite Hne. simpl. destruct (_timer st); simpl; by eexists _, _, _.
Qed.

(** X1. For the arguments a locale can be given as: [setLocale] with
    nothing ([null] or [undefined]) or with the empty string throws its
    assertion and leaves the service exactly as it was; with a non-empty
    string or with an array of strings, the empty array included, it
    returns, and the active locales are then the normalized form of the
    argument. *)
Theorem setLocale_asserts_truthy_argument :
  ∀ (st : Service),
    let unset :=
      (Throw (AssertionError
                "[ember-intl] no locale has been set!  See: https://ember-intl.github.io/ember-intl/docs/quickstart#4-configure-ember-intl"),
       st) in
    setLocale LNothing st = unset
    ∧ setLocale (LString "") st = unset
    ∧ (∀ s : string,
         s ≠ "" →
         fst (setLocale (LString s) st) = Normal tt
         ∧ _locale (snd (setLocale (LString s) st)) = Some [normalizeLocale s])
    ∧ (∀ xs : list string,
         fst (setLocale (LArray xs) st) = Normal tt
         ∧ _locale (snd (setLocale (LArray xs) st))
           = Some (normalizeLocale <$> xs)).
Proof.
  intros st. cbv zeta.
  assert (Hret : ∀ locale, locale_truthy locale = true →
            fst (setLocale locale st) = Normal tt
            ∧ _locale (snd (setLocale locale st)) = Some (proposed locale)).
  { intros locale Ht. destruct (setLocale_truthy st locale Ht) as [-> _].
    simpl. destruct (locale_set_effect locale st) as (t & f & q & ->). done. }
  split; [done|]. split; [done|]. split.
  - intros s Hs. apply (Hret (LString s)). simpl.
    by destruct (String.eqb_spec s "").
  - intros xs. by apply (Hret (LArray xs)).
Qed.

(** X2. The setter takes effect at once and notifies later: whatever the
    state, it returns the normalized sequence of its argument, a single
    string becoming a sequence of one, and that sequence is what the getter,
    [primaryLocale] and the resolution of an absent locale argument give
    from then on; the call itself records no event. *)
Theorem locale_set_takes_effect_synchronously :
  ∀ (st : Service) (localeName : LocaleName),
    let st' := snd (locale_set localeName st) in
    fst (locale_set localeName st) = Normal (Some (proposed localeName))
    ∧ locale_get st' = (Normal (Some (proposed localeName)), st')
    ∧ primaryLocale st' = head (proposed localeName)
    ∧ _localeWithDefault st' VUndefined
      = Normal (Some (proposed localeName))
    ∧ length (proposed localeName) = length (makeArray localeName)
    ∧ events st' = events st
    ∧ _messagesMap st' = _messagesMap st.
Proof.
  intros st localeName. simpl.
  destruct (locale_set_effect localeName st) as (t & f & q & ->). simpl.
  unfold proposed. rewrite length_fmap. done.
Qed.

(** *** Candidate locales *)

(** X3. Candidate resolution for the shapes it supports: a non-empty string
    gives the one normalized name and an array gives its elements
    normalized, in order and as many, whatever locales are active; the empty
    string is taken as no argument and gives the active locales; and the
    result depends on nothing of the service but its active locales. *)
Theorem localeWithDefault_supported_shapes :
  ∀ (st : Service),
    (∀ s, s ≠ "" →
       _localeWithDefault st (VString s) = Normal (Some [normalizeLocale s]))
    ∧ _localeWithDefault st (VString "")
      = Normal (Some (default [] (_locale st)))
    ∧ (∀ xs, ∃ ls,
         _localeWithDefault st (VArray xs) = Normal (Some ls)
         ∧ length ls = length xs
         ∧ ∀ i, ls !! i = normalizeLocale <$> xs !! i)
    ∧ (∀ st' v, _locale st' = _locale st →
         _localeWithDefault st' v = _localeWithDefault st v).
Proof.
  intros st. split; [|split; [|split]].
  - intros s Hs. unfold _localeWithDefault. simpl.
    destruct (String.eqb_spec s ""); [contradiction | done].
  - done.
  - intros xs. exists (normalizeLocale <$> xs). split; [done|].
    split; [apply length_fmap | intros i; apply list_lookup_fmap].
  - intros st' v Heq. unfold _localeWithDefault. by rewrite Heq.
Qed.

(** X4. [lookup] throws exactly when its locale argument is truthy and
    neither a string nor an array (a number, [true], an object): it then
    throws a type error, from reading the length of [undefined], and
    [exists] throws the error of its assertion.  For no argument, a string
    or an array, [lookup] returns in every state of the service, also before
    any locale is set. *)
Theorem lookup_throws_exactly_on_other_shapes :
  ∀ (st : Service) (key : string) (localeName : JsValue),
    (throws (lookup st key localeName) = true
     ↔ truthy localeName = true ∧ is_string localeName = false
       ∧ isArray localeName = false)
    ∧ (truthy localeName = true ∧ is_string localeName = false
       ∧ isArray localeName = false →
       lookup st key localeName
       = Throw (TypeError
                  "Cannot read properties of undefined (reading 'length')")
       ∧ exists_ st key localeName
         = Throw (AssertionError
                    ("[ember-intl] locale is unset, cannot lookup '"
                     +:+ key +:+ "'"))).
Proof.
  intros st key localeName. split.
  - unfold lookup, _localeWithDefault.
    destruct localeName as [| |b|n|s|xs|]; simpl;
      try destruct b; try destruct (n =? 0)%Z;
      try destruct (String.eqb s ""); simpl;
      (split; [intros Hthrows; try discriminate Hthrows; by repeat split
              | intros (H1 & H2 & H3); try discriminate; done]).
  - intros (Ht & Hs & Ha).
    unfold lookup, exists_, _localeWithDefault. rewrite Ht, Hs, Ha. done.
Qed.

(** *** Lookup and existence together *)

(** X5. Whenever [exists] answers true, [lookup] with the same arguments
    finds a translation; and whenever [lookup] finds none, [exists] does not
    answer true.  The converse fails (an empty translation is found and does
    not exist). *)
Theorem exists_implies_lookup_finds :
  ∀ (st : Service) (key : string) (localeName : JsValue),
    exists_ st key localeName = Normal true →
    ∃ translation, lookup st key localeName = Normal (Some translation).
Proof.
  intros st key localeName.
  unfold exists_, lookup.
  destruct (_localeWithDefault st localeName) as [[ls|]|e]; cbn [cbind];
    [|done|done].
  destruct (lookup_loop st key ls) as [t|] eqn:Hloop; [eauto|].
  destruct ls as [|l ls]; [done|].
  cbn [length Nat.eqb negb assert cbind]. intros [= Hex]. exfalso.
  apply (existsb_truthy_translation st key (l :: ls)) in Hex
    as (l' & m & v & Hin & Hm & Hk & _).
  pose proof (lookup_loop_None _ _ _ Hloop l' Hin) as Hnone.
  assert (messages_of st l' !! key = Some v) as Hsome
    by (apply messages_of_Some; eauto).
  congruence.
Qed.

Lemma lookup_loop_app st key xs ys :
  lookup_loop st key (xs ++ ys)
  = match lookup_loop st key xs with
    | Some translation => Some translation
    | None => lookup_loop st key ys
    end.
Proof.
  induction xs as [|x xs IH]; simpl; [done|].
  by destruct (messages_of st x !! key).
Qed.

(** X6. Fallback composes: looking a key up through the locales [xs]
    followed by [ys] gives what [xs] alone gives when that finds a
    translation, and what [ys] alone gives otherwise.  So putting more
    locales at the end of the chain never changes a translation that was
    found. *)
Theorem lookup_through_appended_locales :
  ∀ (st : Service) (key : string) (xs ys : list string),
    lookup st key (VArray (xs ++ ys))
    = match lookup st key (VArray xs) with
      | Normal (Some translation) => Normal (Some translation)
      | _ => lookup st key (VArray ys)
      end.
Proof.
  intros st key xs ys. unfold lookup. simpl.
  rewrite fmap_app, lookup_loop_app.
  by destruct (lookup_loop st key (normalizeLocale <$> xs)).
Qed.

(** *** The translation store *)


(** *** Validation of keys *)



(** *** Notifications *)

Lemma notify_effect st :
  ∃ ev, snd (notify st) = set_events ev st.
Proof.
  unfold notify, trigger_localeChanged, _updateDocumentLanguage, bind, gets,
    modify, raise, ret. simpl.
  destruct (has_dom st), (_locale st); simpl; by eexists.
Qed.

Lemma run_timers_effect ts st :
  ∃ ev, snd (run_timers ts st) = set_events ev st.
Proof.
  revert st. induction ts as [|t ts IH]; intros st; simpl.
  - exists (events st). by destruct st.
  - unfold bind. destruct (notify_effect st) as (ev & Hn).
    destruct (notify st) as [[[]|e] st']; simpl in *; subst; [|by eexists].
    destruct (IH (set_events ev st)) as (ev' & ->). by exists ev'.
Qed.

Lemma turn_effect st :
  ∃ ev, snd (turn st) = set_events ev (set_runloop (rl_fresh st) [] st).
Proof.
  unfold turn, bind, gets, modify. simpl. apply run_timers_effect.
Qed.

Lemma perform_locale_is_Some c st :
  is_Some (_locale st) → is_Some (_locale (perform c st)).
Proof.
  intros Hl. destruct c; simpl.
  - unfold setLocale, bind, lift, assert, ret.
    destruct (locale_truthy locale); simpl; [|done].
    destruct (locale_set_effect locale st) as (t & f & q & ->). simpl. eauto.
  - destruct (locale_set_effect localeName st) as (t & f & q & ->).
    simpl. eauto.
  - done.
  - destruct (serviceFormatterProxy_frame name value formatOptions st)
      as (c & n & l & ->). done.
  - destruct (turn_effect st) as (ev & ->). done.
  - unfold willDestroy, bind, gets, cancel, modify, ret. simpl.
    by destruct (_timer st).
Qed.

Lemma hydrate_effect bundled st :
  fst (hydrate bundled st) = Normal tt
  ∧ ∃ m, snd (hydrate bundled st) = set__messagesMap m st.
Proof.
  revert st. induction bundled as [|[l p] bundled IH]; intros st; simpl.
  - split; [done|]. exists (_messagesMap st). by destruct st.
  - unfold bind, addTranslations, modify. simpl.
    destruct (IH (set__messagesMap
                    (<[normalizeLocale l:=flatten p]> (_messagesMap st)) st))
      as (Hok & m & Hst).
    destruct (hydrate bundled _) as [[[]|e] st'']; simpl in *; [|done].
    split; [done|]. exists m. by rewrite Hst.
Qed.

Lemma init_effect bundled fmts dom :
  fst (init bundled (blank fmts dom)) = Normal tt
  ∧ ∃ m,
      snd (init bundled (blank fmts dom))
      = mkService fmts m (Some [normalizeLocale "en-us"]) (Some 0) ∅ 1 [0]
          dom 0 [] [].
Proof.
  unfold init, locale_get, bind, gets, modify. simpl.
  match goal with
  | |- context [hydrate bundled ?st0] =>
      destruct (hydrate_effect bundled st0) as (Hok & m & Hst);
      destruct (hydrate bundled st0) as [[[]|e] st']
  end; simpl in *; [|done].
  split; [done|]. exists m. by rewrite Hst.
Qed.

Lemma reachable_locale_is_Some st : reachable st → is_Some (_locale st).
Proof.
  induction 1 as [fmts dom bundled|c st _ IH].
  - destruct (init_effect bundled fmts dom) as (_ & m & ->). simpl. eauto.
  - by apply perform_locale_is_Some.
Qed.

(** X9. Only a turn of the run loop fires anything: no call of
    [setLocale], of the [locale] setter, of [addTranslations], of a
    formatter or of [willDestroy] records a [localeChanged] event or writes
    the document language, whether it returns or throws. *)
Theorem events_only_on_turn :
  ∀ (st : Service) (c : Call),
    c ≠ CallTurn → events (perform c st) = events st.
Proof.
  intros st c Hc. destruct c; simpl.
  - unfold setLocale, bind, lift, assert, ret.
    destruct (locale_truthy locale); simpl; [|done].
    by destruct (locale_set_effect locale st) as (t & f & q & ->).
  - by destruct (locale_set_effect localeName st) as (t & f & q & ->).
  - done.
  - by destruct (serviceFormatterProxy_frame name value formatOptions st)
      as (c & n & l & ->).
  - done.
  - unfold willDestroy, bind, gets, cancel, modify, ret. simpl.
    by destruct (_timer st).
Qed.

(** X10. In every state the service reaches, a turn of the run loop
    returns without error and leaves nothing scheduled.  When a
    notification was scheduled, the turn records [localeChanged] once with
    the locales active at that moment and then, if there is a document,
    writes the primary locale as its language; when none was scheduled, it
    records nothing.  A second turn right after records nothing more. *)
Theorem turn_fires_the_pending_notification_once :
  ∀ st : Service,
    reachable st →
    fst (turn st) = Normal tt
    ∧ rl_queue (snd (turn st)) = []
    ∧ events (snd (turn st))
      = events st
        ++ match rl_queue st with
           | [] => []
           | _ :: _ =>
               LocaleChanged (_locale st)
               :: (if has_dom st then [DocumentLang (primaryLocale st)]
                   else [])
           end
    ∧ events (snd (turn (snd (turn st)))) = events (snd (turn st)).
Proof.
  intros st Hreach.
  pose proof (reachable_timer_inv st Hreach) as Hinv.
  destruct (reachable_locale_is_Some st Hreach) as [ls Hl].
  assert (∀ st0, rl_queue st0 = [] →
                 fst (turn st0) = Normal tt ∧ events (snd (turn st0)) = events st0)
    as Hidle.
  { intros st0 Hq. unfold turn, bind, gets, modify. simpl. by rewrite Hq. }
  assert (events (snd (turn (snd (turn st)))) = events (snd (turn st)))
    as Htwice by (apply Hidle, turn_empties_queue).
  destruct Hinv as [Hq|(t & Hq & _)].
  - destruct (Hidle st Hq) as [Hok Hev]. rewrite Hq, app_nil_r.
    pose proof (turn_empties_queue st) as Hempty. done.
  - destruct (turn_single st t ls Hq Hl) as (Hok & Hempty & Hev).
    rewrite Hq. unfold primaryLocale. rewrite Hl. simpl. done.
Qed.

(** X11. [willDestroy] cancels the scheduled notification: in every state
    the service reaches it returns without error, nothing stays scheduled,
    and a turn of the run loop after it records no event; it changes
    neither the active locales nor the translations. *)
Theorem willDestroy_cancels_notification :
  ∀ st : Service,
    reachable st →
    let st' := snd (willDestroy st) in
    fst (willDestroy st) = Normal tt
    ∧ rl_queue st' = []
    ∧ fst (turn st') = Normal tt
    ∧ events (snd (turn st')) = events st
    ∧ _locale st' = _locale st
    ∧ _messagesMap st' = _messagesMap st.
Proof.
  intros st Hreach. simpl.
  pose proof (reachable_timer_inv st Hreach) as Hinv.
  destruct (cancel_own_timer st Hinv) as [Hfilter Hnone].
  assert (willDestroy st
          = (Normal tt, set_runloop (rl_fresh st) [] st)) as ->.
  { unfold willDestroy, bind, gets, cancel, modify, ret. simpl.
    destruct (_timer st) as [t|]; simpl in *.
    - by rewrite Hfilter.
    - rewrite <- (Hnone eq_refl). by destruct st. }
  simpl. unfold turn, bind, gets, modify. simpl. done.
Qed.

(** X12. In every state the service reaches, active locales are set:
    [_locale] is a sequence, never [null], and it is what the getter
    returns, what an absent locale argument resolves to, and what a
    formatting call without a [locale] option uses. *)
Theorem active_locales_are_always_set :
  ∀ st : Service,
    reachable st →
    ∃ ls,
      _locale st = Some ls
      ∧ locale_get st = (Normal (Some ls), st)
      ∧ primaryLocale st = head ls
      ∧ _localeWithDefault st VUndefined = Normal (Some ls)
      ∧ proxy_locale st None = Normal (Some ls).
Proof.
  intros st Hreach.
  destruct (reachable_locale_is_Some st Hreach) as [ls Hl].
  exists ls. unfold locale_get, gets, primaryLocale, _localeWithDefault,
    proxy_locale. rewrite Hl. done.
Qed.

(** *** Failure of the engine constructor *)


(** *** Initialisation *)

Lemma hydrate_other_locale bundled st k :
  (∀ l p, (l, p) ∈ bundled → normalizeLocale l ≠ k) →
  _messagesMap (snd (hydrate bundled st)) !! k = _messagesMap st !! k.
Proof.
  revert st. induction bundled as [|[l p] bundled IH]; intros st Hother;
    simpl; [done|].
  unfold bind, addTranslations, modify. simpl.
  rewrite IH.
  - simpl. apply lookup_insert_ne, (Hother l p). by constructor.
  - intros l' p' Hin. apply (Hother l' p'). by constructor.
Qed.

Lemma hydrate_registers before l p after st :
  (∀ l' p', (l', p') ∈ after → normalizeLocale l' ≠ normalizeLocale l) →
  _messagesMap (snd (hydrate (before ++ (l, p) :: after) st))
  !! normalizeLocale l = Some (flatten p).
Proof.
  revert st. induction before as [|[l0 p0] before IH]; intros st Hafter;
    simpl; unfold bind, addTranslations, modify; simpl.
  - rewrite hydrate_other_locale by done. simpl. apply lookup_insert_eq.
  - by apply IH.
Qed.

(** X14. [init] on a new service returns without error and leaves the
    service with the normalized [en-us] as its only active locale, an empty
    engine cache, no event yet and one notification scheduled, which the
    first turn of the run loop fires; and of the translations bundled with
    the application, the last registration for each normalized locale name
    is the one in the store. *)
Theorem init_sets_default_locale :
  ∀ (bundled : list (string * NestedStructure)) (fmts : Formats)
    (dom : bool),
    let st := snd (init bundled (blank fmts dom)) in
    fst (init bundled (blank fmts dom)) = Normal tt
    ∧ _locale st = Some [normalizeLocale "en-us"]
    ∧ memo st = ∅
    ∧ formats st = fmts
    ∧ events st = []
    ∧ length (rl_queue st) = 1
    ∧ events (snd (turn st))
      = LocaleChanged (Some [normalizeLocale "en-us"])
        :: (if dom then [DocumentLang (Some (normalizeLocale "en-us"))]
            else [])
    ∧ ∀ before l p after,
        bundled = before ++ (l, p) :: after →
        (∀ l' p', (l', p') ∈ after →
                  normalizeLocale l' ≠ normalizeLocale l) →
        translationsFor st l = Some (flatten p).
Proof.
  intros bundled fmts dom. simpl.
  destruct (init_effect bundled fmts dom) as (Hok & m & Hst).
  split; [done|].
  assert (∀ before l p after,
            bundled = before ++ (l, p) :: after →
            (∀ l' p', (l', p') ∈ after →
                      normalizeLocale l' ≠ normalizeLocale l) →
            translationsFor (snd (init bundled (blank fmts dom))) l
            = Some (flatten p)) as Hstore.
  { intros before l p after -> Hafter. unfold translationsFor.
    destruct (init_blank (before ++ (l, p) :: after) fmts dom)
      as (st0 & -> & _).
    by apply hydrate_registers. }
  rewrite Hst in *. simpl. repeat split; try done.
  unfold turn, bind, gets, modify, notify, trigger_localeChanged,
    _updateDocumentLanguage, raise, ret. simpl.
  by destruct dom.
Qed.

(** *** What the cache holds *)

Lemma createIntl_engine_config_inv locale st :
  engine_config_inv st →
  engine_config_inv (snd (createIntl locale (formats st) st)).
Proof.
  intros Hinv.
  destruct (memo st !! (locale, formats st)) as [e0|] eqn:Hc.
  { by rewrite (createIntl_cached _ _ _ _ Hc). }
  destruct (report_all onIntlError
              (engine_reports
                 (mkIntlConfig locale locale (formats st) (formats st)
                    (_messagesMap st !! property_name locale))))
    as [[]|err] eqn:Hr.
  - rewrite (createIntl_constructs _ _ _ Hc Hr).
    intros l f e. simpl. rewrite lookup_insert. case_decide as Hk.
    + injection Hk as <- <-. by intros [= <-].
    + apply Hinv.
  - rewrite (createIntl_rejected _ _ _ _ Hc Hr). exact Hinv.
Qed.

Lemma perform_engine_config_inv c st :
  engine_config_inv st → engine_config_inv (perform c st).
Proof.
  intros Hinv.
  assert (∀ st', same_engines st st' → engine_config_inv st') as Hsame.
  { intros st' (Hm & _ & _ & Hf). unfold engine_config_inv.
    rewrite Hm, Hf. exact Hinv. }
  destruct c; try (apply Hsame, perform_same_engines; by intros).
  simpl.
  destruct (serviceFormatterProxy_state name value formatOptions st)
    as [->|(locale & _ & ->)]; [done|].
  by apply createIntl_engine_config_inv.
Qed.

Lemma reachable_engine_config_inv st : reachable st → engine_config_inv st.
Proof.
  induction 1 as [fmts dom bundled|c st _ IH].
  - destruct (init_effect bundled fmts dom) as (_ & m & ->).
    intros l f e. simpl. by rewrite lookup_empty.
  - by apply perform_engine_config_inv.
Qed.

(** X15. In every state the service reaches, each engine in the cache was
    built for the service's own format configuration, with the locale of
    its cache key as locale and as default locale and with those formats as
    formats and as default formats; so the cache holds at most one engine
    per locale. *)
Theorem cached_engines_are_configured_for_their_locale :
  ∀ (st : Service) (l : option string) (f : Formats) (e : IntlShape),
    reachable st →
    memo st !! (l, f) = Some e →
    f = formats st
    ∧ cfg_locale (config e) = l
    ∧ cfg_defaultLocale (config e) = l
    ∧ cfg_formats (config e) = formats st
    ∧ cfg_defaultFormats (config e) = formats st
    ∧ ∀ f' e', memo st !! (l, f') = Some e' → e' = e.
Proof.
  intros st l f e Hreach Hm.
  pose proof (reachable_engine_config_inv st Hreach) as Hinv.
  destruct (Hinv l f e Hm) as [-> Hcfg].
  rewrite Hcfg. simpl. repeat split.
  intros f' e' Hm'. destruct (Hinv l f' e' Hm') as [-> _]. congruence.
Qed.

(** *** What formatting leaves alone *)

(** X16. A formatting call, whether it returns or throws, changes nothing
    of the service but the engine cache: the active locales, also when the
    call names a locale of its own, the translations, the format
    configuration, the scheduled notification and the events are as before,
    and every engine that was cached still is. *)
Theorem formatting_changes_only_the_cache :
  ∀ (st : Service) (name : FormatterKind) (value : Value)
    (formatOptions : option FormatOptions),
    let st' := snd (serviceFormatterProxy name value formatOptions st) in
    _locale st' = _locale st
    ∧ _messagesMap st' = _messagesMap st
    ∧ formats st' = formats st
    ∧ _timer st' = _timer st
    ∧ rl_queue st' = rl_queue st
    ∧ events st' = events st
    ∧ ∀ k e, memo st !! k = Some e → memo st' !! k = Some e.
Proof.
  intros st name value formatOptions. simpl.
  destruct (serviceFormatterProxy_frame name value formatOptions st)
    as (c & n & l & Hst).
  assert (∀ k e, memo st !! k = Some e →
                 memo (snd (serviceFormatterProxy name value formatOptions st))
                 !! k = Some e) as Hmono.
  { intros k e Hk.
    apply (perform_memo_mono (CallFormat name value formatOptions) st k e Hk). }
  rewrite Hst in *. simpl. by repeat split.
Qed.

(** X17. The translations change through [addTranslations] only, and the
    active locales through [setLocale] and the [locale] setter only: every
    other call, and every turn of the run loop, leaves them as they are. *)
Theorem store_and_locales_change_only_through_their_setters :
  ∀ (st : Service) (c : Call),
    ((∀ l p, c ≠ CallAddTranslations l p) →
     _messagesMap (perform c st) = _messagesMap st)
    ∧ ((∀ v, c ≠ CallSetLocale v) → (∀ v, c ≠ CallSetLocaleProperty v) →
       _locale (perform c st) = _locale st).
Proof.
  intros st c. split.
  - intros Hc. destruct c; simpl.
    + unfold setLocale, bind, lift, assert, ret.
      destruct (locale_truthy locale); simpl; [|done].
      by destruct (locale_set_effect locale st) as (t & f & q & ->).
    + by destruct (locale_set_effect localeName st) as (t & f & q & ->).
    + by destruct (Hc localeName payload).
    + by destruct (serviceFormatterProxy_frame name value formatOptions st)
        as (c & n & l & ->).
    + by destruct (turn_effect st) as (ev & ->).
    + unfold willDestroy, bind, gets, cancel, modify, ret. simpl.
      by destruct (_timer st).
  - intros Hc1 Hc2. destruct c; simpl.
    + by destruct (Hc1 locale).
    + by destruct (Hc2 localeName).
    + done.
    + by destruct (serviceFormatterProxy_frame name value formatOptions st)
        as (c & n & l & ->).
    + by destruct (turn_effect st) as (ev & ->).
    + unfold willDestroy, bind, gets, cancel, modify, ret. simpl.
      by destruct (_timer st).
Qed.

End Service.


(** ** The service at work

    The properties above, applied to a service initialised with bundled
    translations for three locales, under the sample instance. *)

Abbreviation sample_en :=
  (Sample.LeafEntry "greeting" "Hello"
     (Sample.LeafEntry "farewell" "Bye"
        (Sample.LeafEntry "blank" "" Sample.NoMore))).

Abbreviation sample_de :=
  (Sample.LeafEntry "greeting" "Hallo" Sample.NoMore).

Abbreviation sample_fr :=
  (Sample.NestedEntry "a"
     (Sample.LeafEntry "b" "x" (Sample.LeafEntry "c" "y" Sample.NoMore))
     Sample.NoMore).

Abbreviation sample_service :=
  (snd (init Sample.normalize Sample.flatten
          [("en-US", sample_en); ("de", sample_de); ("fr_FR", sample_fr)]
          (blank "{}" true))).

(** The engine the cache builds first for the locale [en-us]. *)
Abbreviation sample_engine :=
  (mkIntlShape 0
     (mkIntlConfig (Some "en-us") (Some "en-us") "{}" "{}"
        (Some (Sample.flatten sample_en)))).

Lemma sample_service_reachable :
  reachable Sample.normalize Sample.flatten Sample.reports Sample.format
    sample_service.
Proof. apply reachable_init. Qed.


Lemma sample_store_en_us :
  _messagesMap sample_service !! "en-us" = Some (Sample.flatten sample_en).
Proof. vm_compute. reflexivity. Qed.

Lemma sample_store_de :
  _messagesMap sample_service !! "de" = Some (Sample.flatten sample_de).
Proof. vm_compute. reflexivity. Qed.

Example sample_flattening :
  translationsFor Sample.normalize sample_service "fr-FR"
  = Some {[ "a.b" := "x"; "a.c" := "y" ]}.
Proof. vm_compute. reflexivity. Qed.

(** C1, as the spec states it, fails: no map was assigned under the locale
    [zz], so no candidate defines the key [toString]; yet [lookup] returns
    a value, the function every plain object inherits under that name, and
    not [undefined]. *)
Lemma lookup_finds_inherited_property :
  _localeWithDefault Sample.normalize sample_service (VArray ["zz"])
  = Normal (Some ["zz"])
  ∧ _messagesMap sample_service !! "zz" = None
  ∧ ∀ plain builtin,
      lookup_proto Sample.normalize plain builtin sample_service "toString"
        (VArray ["zz"])
      = Normal (Some (Inherited ["toString"] true)).
Proof.
  assert (_messagesMap sample_service !! "zz" = None) as Hzz
    by (vm_compute; reflexivity).
  split; [reflexivity|]. split; [exact Hzz|].
  intros plain builtin. unfold lookup_proto.
  cbn [_localeWithDefault truthy is_string isArray negb cbind fmap list_fmap].
  unfold lookup_proto_loop.
  by rewrite (property_read_unassigned plain builtin sample_service
                (Sample.normalize "zz") "toString" Hzz).
Qed.

Lemma lookup_proto_first_defined_witness :
  lookup_proto Sample.normalize true (λ _ _, None) sample_service "farewell"
    (VArray ["DE"; "en_US"])
  = Normal (Some (Translation "Bye"))
  ∧ lookup_proto Sample.normalize true (λ _ _, None) sample_service "blank"
      (VArray ["de"; "en-us"])
    = Normal (Some (Translation ""))
  ∧ lookup_proto Sample.normalize true (λ _ _, None) sample_service
      "farewell" (VArray [])
    = Normal None.
Proof.
  assert (Forall (λ l, inherited l = false) ["de"; "en-us"]) as Hls
    by (repeat constructor).
  assert (_messagesMap sample_service !! "__proto__" = None) as Hproto
    by (vm_compute; reflexivity).
  split; [|split].
  - apply (proj1 (lookup_proto_first_defined Sample.normalize true
                    (λ _ _, None) sample_service
                    "farewell" (VArray ["DE"; "en_US"]) ["de"; "en-us"]
                    eq_refl eq_refl Hls Hproto)
             ["de"] "en-us" [] (Sample.flatten sample_en)).
    + reflexivity.
    + intros l' m' Hin%list_elem_of_singleton Hm'. subst l'.
      rewrite sample_store_de in Hm'. injection Hm' as <-.
      vm_compute. reflexivity.
    + exact sample_store_en_us.
    + vm_compute. reflexivity.
  - apply (proj1 (lookup_proto_first_defined Sample.normalize true
                    (λ _ _, None) sample_service
                    "blank" (VArray ["de"; "en-us"]) ["de"; "en-us"]
                    eq_refl eq_refl Hls Hproto)
             ["de"] "en-us" [] (Sample.flatten sample_en)).
    + reflexivity.
    + intros l' m' Hin%list_elem_of_singleton Hm'. subst l'.
      rewrite sample_store_de in Hm'. injection Hm' as <-.
      vm_compute. reflexivity.
    + exact sample_store_en_us.
    + vm_compute. reflexivity.
  - apply (proj2 (proj2 (lookup_proto_first_defined Sample.normalize true
                           (λ _ _, None) sample_service
                           "farewell" (VArray []) [] eq_refl eq_refl
                           (List.Forall_nil _) Hproto))).
    reflexivity.
Defined.

(** C5, as the spec states it, fails: no map was assigned under the locale
    [zz], so no candidate has a value for the key [constructor]; yet
    [exists] returns true, through the function every plain object inherits
    under that name. *)
Lemma exists_finds_inherited_property :
  _localeWithDefault Sample.normalize sample_service (VArray ["zz"])
  = Normal (Some ["zz"])
  ∧ _messagesMap sample_service !! "zz" = None
  ∧ ∀ plain builtin,
      exists_proto Sample.normalize plain builtin sample_service
        "constructor" (VArray ["zz"])
      = Normal true.
Proof.
  assert (_messagesMap sample_service !! "zz" = None) as Hzz
    by (vm_compute; reflexivity).
  split; [reflexivity|]. split; [exact Hzz|].
  intros plain builtin. unfold exists_proto.
  cbn [_localeWithDefault truthy is_string isArray negb cbind fmap list_fmap
       length Nat.eqb assert existsb].
  by rewrite (property_read_unassigned plain builtin sample_service
                (Sample.normalize "zz") "constructor" Hzz).
Qed.

Lemma exists_proto_asserts_candidates_then_truthy_witness :
  (exists_proto Sample.normalize true (λ _ _, None) sample_service "blank"
     (VArray ["en-US"])
   = Normal false
   ∧ lookup_proto Sample.normalize true (λ _ _, None) sample_service "blank"
       (VArray ["en-US"])
     = Normal (Some (Translation "")))
  ∧ exists_proto Sample.normalize true (λ _ _, None) sample_service "blank"
      (VArray [])
    = Throw (AssertionError
               "[ember-intl] locale is unset, cannot lookup 'blank'").
Proof.
  split.
  - apply (proj2 (proj2 (proj2
             (exists_proto_asserts_candidates_then_truthy Sample.normalize
                true (λ _ _, None) sample_service "blank" (VArray ["en-US"])
                ["en-us"] eq_refl)))).
    + discriminate.
    + reflexivity.
    + repeat constructor.
    + vm_compute. reflexivity.
    + exists "en-us", (Sample.flatten sample_en). split; [by constructor|].
      split; [exact sample_store_en_us | vm_compute; reflexivity].
    + intros l m v Hin%list_elem_of_singleton Hm Hv. subst l.
      rewrite sample_store_en_us in Hm. injection Hm as <-.
      vm_compute in Hv. by injection Hv as <-.
  - apply (proj1 (proj2
             (exists_proto_asserts_candidates_then_truthy Sample.normalize
                true (λ _ _, None) sample_service "blank" (VArray []) []
                eq_refl))).
    reflexivity.
Defined.

(** C7, as the spec states it, fails: given the number 5 as locale
    argument, candidate resolution throws nothing (so no invalid-argument
    error either) and returns [undefined]; given 0, it returns the active
    locales. *)
Lemma localeWithDefault_number_is_not_rejected :
  _localeWithDefault Sample.normalize sample_service (VNumber 5) = Normal None
  ∧ (¬ ∃ e, _localeWithDefault Sample.normalize sample_service (VNumber 5)
            = Throw e)
  ∧ _localeWithDefault Sample.normalize sample_service (VNumber 0)
    = Normal (Some ["en-us"]).
Proof.
  split; [reflexivity|]. split; [|reflexivity].
  intros [e He]. discriminate He.
Qed.

Lemma localeWithDefault_other_shape_witness :
  _localeWithDefault Sample.normalize sample_service VObject = Normal None
  ∧ _localeWithDefault Sample.normalize sample_service (VBool false)
    = Normal (Some ["en-us"]).
Proof.
  split.
  - apply (localeWithDefault_other_shape Sample.normalize sample_service
             VObject); reflexivity.
  - apply (localeWithDefault_other_shape Sample.normalize sample_service
             (VBool false)); reflexivity.
Defined.

Lemma locale_set_equal_is_noop_witness :
  locale_set Sample.normalize (LString "EN_US") sample_service
  = (Normal (Some ["en-us"]), sample_service)
  ∧ setLocale Sample.normalize (LString "EN_US") sample_service
    = (Normal tt, sample_service).
Proof.
  pose proof (locale_set_equal_is_noop Sample.normalize Sample.flatten
                Sample.reports Sample.format sample_service
                (LArray ["en-us"]) (LString "EN_US") eq_refl eq_refl)
    as (Hset & HsetLocale & _).
  split; [exact Hset | exact (HsetLocale eq_refl)].
Defined.

Lemma notification_is_coalesced_witness :
  let twice :=
    snd (setLocale Sample.normalize (LArray ["en"; "fr"])
           (snd (setLocale Sample.normalize (LArray ["en"; "fr"])
                   sample_service))) in
  rl_queue twice = [1]
  ∧ events (snd (turn twice))
    = [LocaleChanged (Some ["en"; "fr"]); DocumentLang (Some "en")].
Proof.
  pose proof (proj2 (proj2
                (notification_is_coalesced Sample.normalize Sample.flatten
                   Sample.reports Sample.format sample_service
                   sample_service_reachable))
                (LArray ["en"; "fr"]) (LArray ["en"; "fr"]) eq_refl eq_refl)
    as Htwice.
  destruct Htwice as (_ & _ & _ & _ & Hevents).
  { left. discriminate. }
  split; [reflexivity | exact Hevents].
Defined.

Lemma sample_engine_built :
  getIntl Sample.reports (Some ["en-us"; "de"]) sample_service
  = (Normal sample_engine,
     snd (getIntl Sample.reports (Some ["en-us"; "de"]) sample_service)).
Proof. vm_compute. reflexivity. Qed.

(** C4, as the spec states it, fails: while no locale is active, the
    constructor throws for the pair of no locale and the formats of the
    service, a throw is not cached, and each of three formatting calls runs
    the constructor for that one pair again. *)
Lemma engine_constructor_runs_again_after_failure :
  let st :=
    run Sample.normalize Sample.flatten Sample.reports Sample.format
      [CallSetLocale (LArray []);
       CallFormat FormatNumber "42" None;
       CallFormat FormatNumber "42" None;
       CallFormat FormatNumber "42" None]
      sample_service in
  reachable Sample.normalize Sample.flatten Sample.reports Sample.format st
  ∧ invoked (None, "{}") st = 3
  ∧ constructed (None, "{}") st = 0
  ∧ memo st !! (None, "{}") = None.
Proof.
  cbv zeta. split.
  - apply run_reachable, sample_service_reachable.
  - repeat split; vm_compute; reflexivity.
Qed.

Lemma engine_cache_is_memoization_witness :
  let built :=
    snd (getIntl Sample.reports (Some ["en-us"; "de"]) sample_service) in
  getIntl Sample.reports (Some ["en-us"; "de"]) built
  = (Normal sample_engine, built).
Proof.
  cbv zeta.
  exact (proj1 (engine_cache_is_memoization Sample.normalize Sample.flatten
                  Sample.reports Sample.format sample_service
                  (Some ["en-us"; "de"]) sample_engine _
                  sample_service_reachable sample_engine_built)).
Defined.

Lemma engine_keeps_messages_of_construction_witness :
  let built :=
    snd (getIntl Sample.reports (Some ["en-us"; "de"]) sample_service) in
  let later :=
    snd (addTranslations Sample.normalize Sample.flatten "en-US"
           (Sample.LeafEntry "greeting" "Hi" Sample.NoMore) built) in
  translationsFor Sample.normalize later "en-US"
  = Some (Sample.flatten (Sample.LeafEntry "greeting" "Hi" Sample.NoMore))
  ∧ getIntl Sample.reports (Some ["en-us"; "de"]) later
    = (Normal sample_engine, later)
  ∧ serviceFormatterProxy Sample.normalize Sample.reports Sample.format
      FormatMessage "greeting" None later
    = (Normal "Hello", later).
Proof.
  cbv zeta.
  destruct (engine_keeps_messages_of_construction Sample.normalize
              Sample.flatten Sample.reports Sample.format sample_service
              (Some ["en-us"; "de"]) sample_engine _ sample_engine_built)
    as (_ & Hlater).
  destruct (Hlater "en-US" (Sample.LeafEntry "greeting" "Hi" Sample.NoMore))
    as (Hstore & _ & Hagain & Hformat).
  split; [exact Hstore|]. split; [exact Hagain|].
  refine (eq_trans
            (Hformat FormatMessage "greeting" None (Some ["en-us"]) _ _) _).
  - vm_compute. reflexivity.
  - reflexivity.
  - apply (f_equal (λ c, (c, _))). vm_compute. reflexivity.
Defined.



Lemma exists_implies_lookup_finds_witness :
  ∃ translation,
    lookup Sample.normalize sample_service "greeting" (VArray ["de"; "en-US"])
    = Normal (Some translation).
Proof.
  apply (exists_implies_lookup_finds Sample.normalize sample_service
           "greeting" (VArray ["de"; "en-US"])).
  vm_compute. reflexivity.
Defined.

Lemma events_only_on_turn_witness :
  events (perform Sample.normalize Sample.flatten Sample.reports
            Sample.format (CallSetLocale (LArray ["fr"; "de"]))
            sample_service)
  = events sample_service.
Proof.
  apply (events_only_on_turn Sample.normalize Sample.flatten Sample.reports
           Sample.format sample_service (CallSetLocale (LArray ["fr"; "de"]))).
  discriminate.
Defined.

Lemma turn_fires_the_pending_notification_once_witness :
  events (snd (turn sample_service))
  = [LocaleChanged (Some ["en-us"]); DocumentLang (Some "en-us")]
  ∧ events (snd (turn (snd (turn sample_service))))
    = events (snd (turn sample_service)).
Proof.
  destruct (turn_fires_the_pending_notification_once Sample.normalize
              Sample.flatten Sample.reports Sample.format sample_service
              sample_service_reachable) as (_ & _ & Hevents & Hagain).
  split; [|exact Hagain].
  etrans; [exact Hevents|]. vm_compute. reflexivity.
Defined.

Lemma willDestroy_cancels_notification_witness :
  rl_queue sample_service = [0]
  ∧ rl_queue (snd (willDestroy sample_service)) = []
  ∧ events (snd (turn (snd (willDestroy sample_service))))
    = events sample_service.
Proof.
  destruct (willDestroy_cancels_notification Sample.normalize Sample.flatten
              Sample.reports Sample.format sample_service
              sample_service_reachable) as (_ & Hqueue & _ & Hevents & _).
  split; [vm_compute; reflexivity|]. split; [exact Hqueue | exact Hevents].
Defined.

Lemma active_locales_are_always_set_witness :
  ∃ ls,
    _locale sample_service = Some ls
    ∧ locale_get sample_service = (Normal (Some ls), sample_service)
    ∧ primaryLocale sample_service = head ls
    ∧ _localeWithDefault Sample.normalize sample_service VUndefined
      = Normal (Some ls)
    ∧ proxy_locale Sample.normalize sample_service
        (None : option (FormatOptions unit))
      = Normal (Some ls).
Proof.
  exact (active_locales_are_always_set Sample.normalize Sample.flatten
           Sample.reports Sample.format sample_service
           sample_service_reachable).
Defined.



Lemma sample_engine_cached :
  memo (perform Sample.normalize Sample.flatten Sample.reports Sample.format
          (CallFormat FormatNumber "42" None) sample_service)
  !! (Some "en-us", "{}") = Some sample_engine.
Proof. vm_compute. reflexivity. Qed.

Lemma cached_engines_are_configured_for_their_locale_witness :
  cfg_defaultLocale (config sample_engine) = Some "en-us"
  ∧ cfg_defaultFormats (config sample_engine)
    = formats (perform Sample.normalize Sample.flatten Sample.reports
                 Sample.format (CallFormat FormatNumber "42" None)
                 sample_service).
Proof.
  destruct (cached_engines_are_configured_for_their_locale Sample.normalize
              Sample.flatten Sample.reports Sample.format _ (Some "en-us")
              "{}" sample_engine
              (reachable_perform Sample.normalize Sample.flatten
                 Sample.reports Sample.format
                 (CallFormat FormatNumber "42" None) sample_service
                 sample_service_reachable)
              sample_engine_cached)
    as (_ & _ & Hdefault & _ & Hformats & _).
  split; [exact Hdefault | exact Hformats].
Defined.
